(** * Face_match_cut: eye alignment and auto-fit zoom (src/script.js)

    A shallow embedding of the geometric core of [script.js]:
    [getCentroid], the eye geometry computed inline by [renderFrame]
    and [autoFitZoom], the canvas transform built by [renderFrame],
    and the auto-fit solver [autoFitZoom].

    Geometry is modelled over the reals.  The values that the source
    lets become non-finite (the scale [desiredEyesDist / currentEyesDist],
    the running bound [maxScaleForThisImage] that starts at [Infinity],
    the zooms derived from it) are JavaScript numbers of type [num]:
    a finite real, [+Infinity], [-Infinity] or [NaN].  Signed zeros are
    not distinguished. *)

From Stdlib Require Import Reals Lra Psatz List String Ascii.
Import ListNotations.
Open Scope R_scope.

(** ** JavaScript numbers *)

Inductive num : Type :=
| Fin (r : R)
| PInf
| NInf
| NaN.

(** [x * r] for a finite [r]. *)
Definition num_mulR (x : num) (r : R) : num :=
  match x with
  | Fin a => Fin (a * r)
  | PInf => if Rlt_dec 0 r then PInf else if Rlt_dec r 0 then NInf else NaN
  | NInf => if Rlt_dec 0 r then NInf else if Rlt_dec r 0 then PInf else NaN
  | NaN => NaN
  end.

(** [x / r] for a finite [r]; division by zero as in IEEE 754 (by [+0]). *)
Definition num_divR (x : num) (r : R) : num :=
  match x with
  | Fin a =>
      if Req_EM_T r 0 then
        (if Rlt_dec 0 a then PInf else if Rlt_dec a 0 then NInf else NaN)
      else Fin (a / r)
  | PInf => if Rlt_dec r 0 then NInf else PInf
  | NInf => if Rlt_dec r 0 then PInf else NInf
  | NaN => NaN
  end.

(** [Math.min] on two numbers. *)
Definition num_min (x y : num) : num :=
  match x, y with
  | NaN, _ | _, NaN => NaN
  | NInf, _ | _, NInf => NInf
  | PInf, v | v, PInf => v
  | Fin a, Fin b => Fin (Rmin a b)
  end.

(** [Math.max] on two numbers. *)
Definition num_max (x y : num) : num :=
  match x, y with
  | NaN, _ | _, NaN => NaN
  | PInf, _ | _, PInf => PInf
  | NInf, v | v, NInf => v
  | Fin a, Fin b => Fin (Rmax a b)
  end.

(** [Math.floor] on reals: the greatest integer not above [x]. *)
Definition math_floor (x : R) : R := IZR (Int_part x).

Definition num_floor (x : num) : num :=
  match x with
  | Fin a => Fin (math_floor a)
  | v => v
  end.

(** [Math.round]: [floor (x + 0.5)] for finite [x]. *)
Definition num_round (x : num) : num :=
  match x with
  | Fin a => Fin (math_floor (a + /2))
  | v => v
  end.

(** [Math.atan2] on reals (no signed zeros: [atan2 0 0 = 0]). *)
Definition atan2 (y x : R) : R :=
  if Rlt_dec 0 x then atan (y / x)
  else if Rlt_dec x 0 then
    (if Rle_dec 0 y then atan (y / x) + PI else atan (y / x) - PI)
  else if Rlt_dec 0 y then PI / 2
  else if Rlt_dec y 0 then - (PI / 2)
  else 0.

(** ** Data model *)

Record Point : Type := mkPoint { px : R; py : R }.

(** The raster: only its pixel dimensions matter here. *)
Record Image : Type := mkImage { width : R; height : R }.

(** face-api landmarks, through [getLeftEye] / [getRightEye]. *)
Record Landmarks : Type := mkLandmarks { leftEye : list Point; rightEye : list Point }.

Record Detection : Type := mkDetection { landmarks : Landmarks }.

(** An entry of [state.images]: [detections] is [undefined] when no face
    was found. *)
Record Item : Type := mkItem { original : Image; detections : option Detection }.

(** ** [getCentroid] *)

(** Over [R], an empty [points] would give [(0, 0)] where JavaScript gives
    [NaN] ([0 / 0]); the face-api 68-point landmarks always hand six points
    to each eye, so only non-empty clusters reach [getCentroid]. *)
Definition getCentroid (points : list Point) : Point :=
  let sum := fold_left (fun acc p => mkPoint (px acc + px p) (py acc + py p))
                       points (mkPoint 0 0) in
  mkPoint (px sum / INR (List.length points)) (py sum / INR (List.length points)).

(** ** Eye geometry, as computed inline by [renderFrame] and [autoFitZoom] *)

Record Geometry : Type := mkGeometry {
  eyesCenter : Point;
  angle : R;
  eyeDist : R   (** [currentEyesDist] *)
}.

Definition faceGeometry (leftEyeCenter rightEyeCenter : Point) : Geometry :=
  let dx := px rightEyeCenter - px leftEyeCenter in
  let dy := py rightEyeCenter - py leftEyeCenter in
  mkGeometry
    (mkPoint ((px leftEyeCenter + px rightEyeCenter) / 2)
             ((py leftEyeCenter + py rightEyeCenter) / 2))
    (atan2 dy dx)
    (sqrt (dx * dx + dy * dy)).

Definition geometryOf (det : Detection) : Geometry :=
  faceGeometry (getCentroid (leftEye (landmarks det)))
               (getCentroid (rightEye (landmarks det))).

(** ** The 2D canvas transform

    The current transform [(a, b, c, d, e, f)] maps [(x, y)] to
    [(a x + c y + e, b x + d y + f)]; [translate], [scale] and [rotate]
    post-multiply it, and [scale] with a non-finite argument is ignored,
    as the canvas API specifies. *)

Record Matrix : Type := mkMatrix { ma : R; mb : R; mc : R; md : R; me : R; mf : R }.

Definition identity : Matrix := mkMatrix 1 0 0 1 0 0.

Definition ctx_translate (m : Matrix) (tx ty : R) : Matrix :=
  mkMatrix (ma m) (mb m) (mc m) (md m)
           (ma m * tx + mc m * ty + me m) (mb m * tx + md m * ty + mf m).

Definition ctx_scale (m : Matrix) (sx sy : num) : Matrix :=
  match sx, sy with
  | Fin x, Fin y => mkMatrix (ma m * x) (mb m * x) (mc m * y) (md m * y) (me m) (mf m)
  | _, _ => m
  end.

Definition ctx_rotate (m : Matrix) (t : R) : Matrix :=
  mkMatrix (ma m * cos t + mc m * sin t) (mb m * cos t + md m * sin t)
           (- (ma m * sin t) + mc m * cos t) (- (mb m * sin t) + md m * cos t)
           (me m) (mf m).

Definition transformPoint (m : Matrix) (p : Point) : Point :=
  mkPoint (ma m * px p + mc m * py p + me m) (mb m * px p + md m * py p + mf m).

(** The transform [renderFrame] sets before [drawImage(item.original, 0, 0)]
    (from the identity, after [ctx.save()]). *)
Definition alignTransform (canvasW canvasH : R) (zoom : num) (g : Geometry) : Matrix :=
  let desiredEyesDist := num_mulR zoom canvasW in
  let scale := num_divR desiredEyesDist (eyeDist g) in
  let targetX := canvasW * 0.5 in
  let targetY := canvasH * 0.4 in
  let m1 := ctx_translate identity targetX targetY in
  let m2 := ctx_scale m1 scale scale in
  let m3 := ctx_rotate m2 (- angle g) in
  ctx_translate m3 (- px (eyesCenter g)) (- py (eyesCenter g)).

Definition pdist (p q : Point) : R :=
  sqrt ((px p - px q) * (px p - px q) + (py p - py q) * (py p - py q)).

(** ** Session state (the fields of [state] and of the page the core uses) *)

Inductive DrawCall : Type :=
| DrawAligned (m : Matrix) (img : Image)               (** [drawImage(img, 0, 0)] under [m] *)
| DrawLetterbox (img : Image) (x y w h : R).           (** [drawImage(img, x, y, w, h)] *)

Record State : Type := mkState {
  images : list Item;
  isPlaying : bool;
  currentFrame : nat;
  zoom : num;
  alignEyes : bool;
  canvasWidth : R;
  canvasHeight : R;
  zoomRangeValue : num;          (** [elements.zoomRange.value] *)
  loadingVisible : bool;         (** the loading overlay is shown *)
  loadingText : string;
  canvasContent : option DrawCall  (** the last frame drawn on the canvas *)
}.

Definition setZoom (st : State) (z v : num) : State :=
  mkState (images st) (isPlaying st) (currentFrame st) z (alignEyes st)
          (canvasWidth st) (canvasHeight st) v (loadingVisible st)
          (loadingText st) (canvasContent st).

Definition showLoading (st : State) (text : string) : State :=
  mkState (images st) (isPlaying st) (currentFrame st) (zoom st) (alignEyes st)
          (canvasWidth st) (canvasHeight st) (zoomRangeValue st) true
          text (canvasContent st).

Definition hideLoading (st : State) : State :=
  mkState (images st) (isPlaying st) (currentFrame st) (zoom st) (alignEyes st)
          (canvasWidth st) (canvasHeight st) (zoomRangeValue st) false
          (loadingText st) (canvasContent st).

Definition setCanvas (st : State) (d : DrawCall) : State :=
  mkState (images st) (isPlaying st) (currentFrame st) (zoom st) (alignEyes st)
          (canvasWidth st) (canvasHeight st) (zoomRangeValue st) (loadingVisible st)
          (loadingText st) (Some d).

(** ** [renderFrame] *)

Definition renderFrame (st : State) (index : nat) : option DrawCall :=
  match nth_error (images st) index with
  | None => None
  | Some item =>
      let W := canvasWidth st in
      let H := canvasHeight st in
      match alignEyes st, detections item with
      | true, Some det =>
          Some (DrawAligned (alignTransform W H (zoom st) (geometryOf det)) (original item))
      | _, _ =>
          let img := original item in
          let scale := Rmin (W / width img) (H / height img) in
          let x := (W - width img * scale) / 2 in
          let y := (H - height img * scale) / 2 in
          Some (DrawLetterbox img x y (width img * scale) (height img * scale))
      end
  end.

(** The canvas after a call of [renderFrame]. *)
Definition renderInto (st : State) (index : nat) : State :=
  match renderFrame st index with
  | Some d => setCanvas st d
  | None => st
  end.

(** ** [autoFitZoom] *)

Definition corners (img : Image) : list Point :=
  [mkPoint 0 0; mkPoint (width img) 0; mkPoint (width img) (height img);
   mkPoint 0 (height img)].

(** One axis of the loop body over the corners. *)
Definition axisUpdate (ms : num) (rot extent target : R) : num :=
  if Rlt_dec 0 rot then num_min ms (Fin ((extent - target) / rot))
  else if Rlt_dec rot 0 then num_min ms (Fin (- target / rot))
  else ms.

Definition cornerUpdate (W H targetX targetY : R) (c : Point) (cs sn : R)
    (ms : num) (p : Point) : num :=
  let relX := px p - px c in
  let relY := py p - py c in
  let rotX := relX * cs - relY * sn in
  let rotY := relX * sn + relY * cs in
  axisUpdate (axisUpdate ms rotX W targetX) rotY H targetY.

(** [maxScaleForThisImage]. *)
Definition maxScaleForImage (W H : R) (img : Image) (g : Geometry) : num :=
  let targetX := W * 0.5 in
  let targetY := H * 0.4 in
  fold_left (cornerUpdate W H targetX targetY (eyesCenter g)
                          (cos (- angle g)) (sin (- angle g)))
            (corners img) PInf.

(** [safeZoom] of one image. *)
Definition frameSafeZoom (W H : R) (img : Image) (g : Geometry) : num :=
  num_divR (num_mulR (maxScaleForImage W H img g) (eyeDist g)) W.

(** The [forEach] over [state.images]: items without detections are skipped. *)
Definition safeZoomStep (W H : R) (acc : num) (item : Item) : num :=
  match detections item with
  | None => acc
  | Some det => num_min acc (frameSafeZoom W H (original item) (geometryOf det))
  end.

(** [minSafeZoom] after the loop. *)
Definition minSafeZoomOf (st : State) : num :=
  fold_left (safeZoomStep (canvasWidth st) (canvasHeight st)) (images st) (Fin 1).

(** [clampedZoom] computed from [minSafeZoom]. *)
Definition clampZoom (minSafeZoom : num) : num :=
  let finalZoom := num_divR (num_floor (num_mulR (num_mulR minSafeZoom 0.95) 100)) 100 in
  num_max (Fin 0.1) (num_min (Fin 1) finalZoom).

Definition autoFitZoom (st : State) : State :=
  match images st with
  | [] => st
  | _ :: _ =>
      let st1 := showLoading st "Calculating optimal zoom..." in
      let clampedZoom := clampZoom (minSafeZoomOf st1) in
      let st2 := setZoom st1 clampedZoom (num_round (num_mulR clampedZoom 100)) in
      let st3 := hideLoading st2 in
      if isPlaying st3 then st3 else renderInto st3 (currentFrame st3)
  end.

Definition isLetterbox (d : option DrawCall) : bool :=
  match d with
  | Some (DrawLetterbox _ _ _ _ _) => true
  | _ => false
  end.

(** ** The auto-fit bound as the spec words it (section 4.3)

    For each corner and axis an optional bound; the frame's maximum
    scale is the minimum of the bounds present ([+Infinity] for none),
    and the global safe zoom is the minimum of the frames' safe zooms. *)

Definition axisBound (rot extent target : R) : option R :=
  if Rlt_dec 0 rot then Some ((extent - target) / rot)
  else if Rlt_dec rot 0 then Some (- target / rot)
  else None.

Definition cornerBounds (W H : R) (img : Image) (g : Geometry) : list (option R) :=
  let cs := cos (- angle g) in
  let sn := sin (- angle g) in
  flat_map (fun p =>
              let relX := px p - px (eyesCenter g) in
              let relY := py p - py (eyesCenter g) in
              [axisBound (relX * cs - relY * sn) W (W * 0.5);
               axisBound (relX * sn + relY * cs) H (H * 0.4)])
           (corners img).

Definition minBounds (l : list (option R)) : num :=
  fold_right (fun b acc => match b with Some v => num_min (Fin v) acc | None => acc end)
             PInf l.

(** One step of the code's loop, on the bound of one corner and axis. *)
Definition addBound (ms : num) (b : option R) : num :=
  match b with Some v => num_min ms (Fin v) | None => ms end.

Definition globalSafeZoom_spec (st : State) : num :=
  fold_right (fun item acc =>
                match detections item with
                | None => acc
                | Some det =>
                    num_min (frameSafeZoom (canvasWidth st) (canvasHeight st)
                                           (original item) (geometryOf det)) acc
                end)
             PInf (images st).


(** ** Concrete inputs *)

Definition img10 : Image := mkImage 10 10.

(** Both eyes detected at the same point. *)
Definition detCoincident : Detection := mkDetection (mkLandmarks [mkPoint 5 5] [mkPoint 5 5]).

(** The eye points lie outside the raster, far apart. *)
Definition detFar : Detection :=
  mkDetection (mkLandmarks [mkPoint (-100) 5] [mkPoint 110 5]).


Definition session (items : list Item) : State :=
  mkState items false 0 (Fin 0.25) true 10 10 (Fin 25) false "" None.

Definition stCoincident : State := session [mkItem img10 (Some detCoincident)].
Definition stFar : State := session [mkItem img10 (Some detFar)].
Definition stNoFace : State := session [mkItem img10 None].
Definition stEmpty : State := session [].

(** Three frames: a face, no face, and a face with coincident eyes. *)
Definition stThree : State :=
  session [mkItem img10 (Some detFar); mkItem img10 None; mkItem img10 (Some detCoincident)].

(** ** Placement on the canvas *)

Definition inCanvas (W H : R) (p : Point) : Prop := 0 <= px p <= W /\ 0 <= py p <= H.

(** ** Playback ([startPlayback] and its [loop])

    The loop's closure holds [lastTime]; [state.fps] is read at each tick. *)

Definition setPlayback (st : State) (playing : bool) (frame : nat) : State :=
  mkState (images st) playing frame (zoom st) (alignEyes st)
          (canvasWidth st) (canvasHeight st) (zoomRangeValue st) (loadingVisible st)
          (loadingText st) (canvasContent st).

Record Player : Type := mkPlayer { pstate : State; fps : R; lastTime : R }.

(** The state effect of [startPlayback]. *)
Definition startState (st : State) : State := setPlayback st true 0.

Definition startPlayback (st : State) (fpsv : R) : Player := mkPlayer (startState st) fpsv 0.

(** One call of [loop(timestamp)]: [Stopped] when it returns without
    rescheduling; [IndexNaN] when [(currentFrame + 1) % 0] makes the frame
    index [NaN] (no images); [Continue] otherwise. *)
Inductive Tick : Type :=
| Stopped
| IndexNaN
| Continue (p : Player).

Definition loopTick (p : Player) (timestamp : R) : Tick :=
  let st := pstate p in
  if negb (isPlaying st) then Stopped
  else
    let interval := 1000 / fps p in
    if Rlt_dec interval (timestamp - lastTime p) then
      let st1 := renderInto st (currentFrame st) in
      match List.length (images st1) with
      | O => IndexNaN
      | n => Continue (mkPlayer (setPlayback st1 (isPlaying st1)
                                             (Nat.modulo (S (currentFrame st1)) n))
                                (fps p) timestamp)
      end
    else Continue p.

(** [resetApp] (the page sections and the file input are not modelled). *)
Definition resetApp (st : State) : State :=
  mkState [] false (currentFrame st) (zoom st) (alignEyes st)
          (canvasWidth st) (canvasHeight st) (zoomRangeValue st) (loadingVisible st)
          (loadingText st) (canvasContent st).

(** ** GIF export ([exportGif] up to [gif.render()]) *)

(** A frame handed to [gif.addFrame]: the canvas content and the delay. *)
Definition GifFrame : Type := (option DrawCall * R)%type.

Definition addFrameStep (fpsv : R) (acc : State * list GifFrame) (i : nat)
    : State * list GifFrame :=
  let st1 := renderInto (fst acc) i in
  (showLoading st1 "Adding frames...", snd acc ++ [(canvasContent st1, 1000 / fpsv)]).

Definition exportGif (st : State) (fpsv : R) : State * list GifFrame :=
  match images st with
  | [] => (st, [])
  | _ :: _ =>
      let st1 := showLoading st "Generating GIF..." in
      let st2 := setPlayback st1 false (currentFrame st1) in
      fold_left (addFrameStep fpsv) (seq 0 (List.length (images st2))) (st2, [])
  end.

(** The [finished] callback: [hideLoading()], then [startPlayback()] if
    playback was running. *)
Definition gifFinished (wasPlaying : bool) (st : State) : State :=
  let st1 := hideLoading st in
  if wasPlaying then startState st1 else st1.

(** ** Ingestion ([handleFiles])

    The browser's [File] is its MIME type and name.  [toLowerCase] is
    modelled on ASCII letters.  Loading, HEIC conversion and detection
    ([heic2any], [loadImage], [detectFace]) are one external step
    [process], which yields the new entry of [state.images] or fails (the
    [catch] that warns and continues). *)

Record File : Type := mkFile { ftype : string; fname : string }.

Definition lowerAscii (c : Ascii.ascii) : Ascii.ascii :=
  let n := Ascii.nat_of_ascii c in
  if (Nat.leb 65 n && Nat.leb n 90)%bool then Ascii.ascii_of_nat (n + 32) else c.

Fixpoint toLowerCase (s : string) : string :=
  match s with
  | EmptyString => EmptyString
  | String c s' => String (lowerAscii c) (toLowerCase s')
  end.

Definition startsWith (s pre : string) : bool := String.prefix pre s.

Definition endsWith (s suf : string) : bool :=
  let n := String.length s in
  let k := String.length suf in
  (Nat.leb k n && String.eqb (substring (n - k) k s) suf)%bool.

Definition isHeicName (f : File) : bool :=
  (endsWith (toLowerCase (fname f)) ".heic" || endsWith (toLowerCase (fname f)) ".heif")%bool.

(** The [filter] predicate of [handleFiles]. *)
Definition acceptedFile (f : File) : bool :=
  (startsWith (ftype f) "image/" ||
   endsWith (toLowerCase (fname f)) ".heic" ||
   endsWith (toLowerCase (fname f)) ".heif")%bool.

Fixpoint uint_to_string (u : Decimal.uint) : string :=
  match u with
  | Decimal.Nil => EmptyString
  | Decimal.D0 u => String "0"%char (uint_to_string u)
  | Decimal.D1 u => String "1"%char (uint_to_string u)
  | Decimal.D2 u => String "2"%char (uint_to_string u)
  | Decimal.D3 u => String "3"%char (uint_to_string u)
  | Decimal.D4 u => String "4"%char (uint_to_string u)
  | Decimal.D5 u => String "5"%char (uint_to_string u)
  | Decimal.D6 u => String "6"%char (uint_to_string u)
  | Decimal.D7 u => String "7"%char (uint_to_string u)
  | Decimal.D8 u => String "8"%char (uint_to_string u)
  | Decimal.D9 u => String "9"%char (uint_to_string u)
  end.

(** A template-literal [${n}] of a natural number. *)
Definition nat_to_string (n : nat) : string := uint_to_string (Nat.to_uint n).

Definition setImages (st : State) (l : list Item) : State :=
  mkState l (isPlaying st) (currentFrame st) (zoom st) (alignEyes st)
          (canvasWidth st) (canvasHeight st) (zoomRangeValue st) (loadingVisible st)
          (loadingText st) (canvasContent st).

(** [state.canvas.width = ...; state.canvas.height = ...]: resizing a
    canvas clears it. *)
Definition setCanvasSize (st : State) (w h : R) : State :=
  mkState (images st) (isPlaying st) (currentFrame st) (zoom st) (alignEyes st)
          w h (zoomRangeValue st) (loadingVisible st) (loadingText st) None.

(** One iteration of the sequential [for] loop over the accepted files. *)
Definition ingestStep (process : File -> option Item) (total : nat) (st : State)
    (entry : nat * File) : State :=
  let i := fst entry in
  let f := snd entry in
  let st1 := showLoading st ("Processing image " ++ nat_to_string (i + 1) ++ " of "
                             ++ nat_to_string total ++ "...")%string in
  let st2 := if isHeicName f
             then showLoading st1 ("Converting HEIC image " ++ nat_to_string (i + 1) ++ "...")%string
             else st1 in
  match process f with
  | Some item => setImages st2 (images st2 ++ [item])
  | None => st2
  end.

Definition handleFiles (isModelLoaded : bool) (process : File -> option Item)
    (st : State) (fileList : list File) : State :=
  if negb isModelLoaded then st
  else
    let files := filter acceptedFile fileList in
    match files with
    | [] => st
    | _ :: _ =>
        let n := List.length files in
        let st1 := showLoading st ("Processing " ++ nat_to_string n ++ " images...")%string in
        let st2 := setImages st1 [] in
        let st3 := fold_left (ingestStep process n) (combine (seq 0 n) files) st2 in
        match images st3 with
        | first :: _ =>
            startState (hideLoading (setCanvasSize st3 (width (original first))
                                                       (height (original first))))
        | [] => resetApp st3
        end
    end.

(** Successive [requestAnimationFrame] callbacks at the given timestamps. *)
Fixpoint runLoop (p : Player) (timestamps : list R) : Tick :=
  match timestamps with
  | [] => Continue p
  | t :: ts =>
      match loopTick p t with
      | Continue p' => runLoop p' ts
      | other => other
      end
  end.

(** Timestamps each more than [interval] after the previous one. *)
Fixpoint spaced (last interval : R) (timestamps : list R) : Prop :=
  match timestamps with
  | [] => True
  | t :: ts => interval < t - last /\ spaced t interval ts
  end.

(** The zoom slider's [input] handler, for the integer slider value [v]. *)
Definition onZoomInput (st : State) (v : Z) : State :=
  let st1 := setZoom st (Fin (IZR v / 100)) (Fin (IZR v)) in
  if (negb (isPlaying st1) && negb (Nat.eqb (List.length (images st1)) 0))%bool
  then renderInto st1 (currentFrame st1)
  else st1.

(** ** Tactics for concrete real arithmetic *)

Ltac rdec :=
  repeat match goal with
  | |- context [Rlt_dec ?a ?b] => destruct (Rlt_dec a b); try (exfalso; lra)
  | |- context [Rle_dec ?a ?b] => destruct (Rle_dec a b); try (exfalso; lra)
  | |- context [Req_EM_T ?a ?b] => destruct (Req_EM_T a b); try (exfalso; lra)
  end.

(** * Properties *)

(** ** [Math.floor] *)

Lemma math_floor_spec (x : R) (z : Z) :
  IZR z <= x < IZR z + 1 -> math_floor x = IZR z.
Proof.
  intros [H1 H2]. unfold math_floor, Int_part.
  assert (Hup : (z + 1)%Z = up x).
  { apply tech_up; rewrite plus_IZR; lra. }
  rewrite <- Hup. f_equal. lia.
Qed.

Lemma math_floor_le (x : R) : math_floor x <= x.
Proof. unfold math_floor. destruct (base_Int_part x). lra. Qed.

(** ** The canvas transform *)

Lemma alignTransform_fin (W H z : R) (g : Geometry) :
  eyeDist g <> 0 ->
  alignTransform W H (Fin z) g =
  (let s := z * W / eyeDist g in
   let t := - angle g in
   ctx_translate
     (mkMatrix (s * cos t) (s * sin t) (- (s * sin t)) (s * cos t)
               (W * 0.5) (H * 0.4))
     (- px (eyesCenter g)) (- py (eyesCenter g))).
Proof.
  intros Hd. unfold alignTransform. cbn [num_mulR num_divR].
  destruct (Req_EM_T (eyeDist g) 0) as [E | _]; [contradiction |].
  unfold ctx_translate, ctx_scale, ctx_rotate, identity; cbn.
  f_equal; ring.
Qed.

(** C2: for a geometry with [eyeDistance > 0] and a zoom in (0,1], the
    transform built by [renderFrame] maps the eyes-center exactly to
    [(canvasWidth * 0.5, canvasHeight * 0.4)]. *)
Theorem eyesCenter_to_target (W H z : R) (g : Geometry) :
  0 < eyeDist g -> 0 < z <= 1 ->
  transformPoint (alignTransform W H (Fin z) g) (eyesCenter g) = mkPoint (W * 0.5) (H * 0.4).
Proof.
  intros Hd _. rewrite alignTransform_fin by lra.
  unfold transformPoint, ctx_translate; cbn. f_equal; ring.
Qed.

Lemma eyesCenter_to_target_witness :
  (0 < eyeDist (mkGeometry (mkPoint 5 5) 0 2) /\ 0 < 1/4 <= 1) /\
  transformPoint (alignTransform 10 10 (Fin (1/4)) (mkGeometry (mkPoint 5 5) 0 2))
                 (eyesCenter (mkGeometry (mkPoint 5 5) 0 2)) = mkPoint (10 * 0.5) (10 * 0.4).
Proof.
  split; [cbn; lra | apply (eyesCenter_to_target 10 10 (1/4)); cbn; lra].
Defined.

(** C3: for eye centers at positive distance, a positive canvas width and a
    positive zoom, the images of the two eye centers under the built
    transform are exactly [canvasWidth * zoom] apart, so within any
    relative tolerance, 1e-6 in particular. *)
Theorem eye_distance_after_transform (W H z : R) (l r : Point) :
  0 < W -> 0 < z -> 0 < eyeDist (faceGeometry l r) ->
  let m := alignTransform W H (Fin z) (faceGeometry l r) in
  pdist (transformPoint m l) (transformPoint m r) = W * z /\
  Rabs (pdist (transformPoint m l) (transformPoint m r) - W * z) <= 1e-6 * Rabs (W * z).
Proof.
  intros HW Hz Hd m.
  assert (E : pdist (transformPoint m l) (transformPoint m r) = W * z).
  { unfold m. rewrite alignTransform_fin by lra.
    set (g := faceGeometry l r) in *.
    set (D := eyeDist g) in *.
    set (s := z * W / D).
    set (t := - angle g).
    assert (Hs : 0 <= s) by (unfold s; apply Rlt_le, Rdiv_lt_0_compat; nra).
    assert (Hsc : sin t * sin t + cos t * cos t = 1)
      by (pose proof (sin2_cos2 t) as Q; unfold Rsqr in Q; exact Q).
    unfold pdist, transformPoint, ctx_translate; cbn.
    set (u := px l - px r). set (v := py l - py r).
    match goal with
    | |- sqrt ?e = _ =>
        replace e with ((s * s) * (u * u + v * v) * (sin t * sin t + cos t * cos t))
          by (unfold u, v; ring)
    end.
    rewrite Hsc, Rmult_1_r.
    assert (HD : D = sqrt (u * u + v * v)).
    { unfold D, g, faceGeometry, u, v; cbn. f_equal; ring. }
    rewrite sqrt_mult_alt by nra.
    rewrite sqrt_square by exact Hs.
    rewrite <- HD. unfold s. field. lra. }
  split; [exact E |].
  rewrite E, Rminus_diag, Rabs_R0. pose proof (Rabs_pos (W * z)). lra.
Qed.

Lemma eye_distance_after_transform_witness :
  (0 < (10:R) /\ 0 < (1/4:R) /\ 0 < eyeDist (faceGeometry (mkPoint 4 5) (mkPoint 6 5))) /\
  pdist (transformPoint (alignTransform 10 10 (Fin (1/4)) (faceGeometry (mkPoint 4 5) (mkPoint 6 5)))
                        (mkPoint 4 5))
        (transformPoint (alignTransform 10 10 (Fin (1/4)) (faceGeometry (mkPoint 4 5) (mkPoint 6 5)))
                        (mkPoint 6 5)) = 10 * (1/4).
Proof.
  assert (Hd : 0 < eyeDist (faceGeometry (mkPoint 4 5) (mkPoint 6 5)))
    by (cbn; apply sqrt_lt_R0; lra).
  split; [repeat split; lra |].
  apply (eye_distance_after_transform 10 10 (1/4) (mkPoint 4 5) (mkPoint 6 5)); lra.
Defined.

(** C10: with no images, [autoFitZoom] returns at once and leaves the
    whole session state, the zoom included, unchanged. *)
Theorem autoFit_empty_noop (st : State) :
  images st = [] -> autoFitZoom st = st.
Proof. intros E. unfold autoFitZoom. rewrite E. reflexivity. Qed.

Lemma autoFit_empty_noop_witness : images stEmpty = [] /\ autoFitZoom stEmpty = stEmpty.
Proof. split; [reflexivity | apply autoFit_empty_noop; reflexivity]. Defined.

(** ** What [autoFitZoom] stores *)

Lemma renderInto_zoom (st : State) (i : nat) : zoom (renderInto st i) = zoom st.
Proof. unfold renderInto. destruct (renderFrame st i); reflexivity. Qed.

Lemma autoFit_zoom (st : State) :
  images st <> [] -> zoom (autoFitZoom st) = clampZoom (minSafeZoomOf st).
Proof.
  intros Hne. unfold autoFitZoom.
  destruct (images st) eqn:E; [contradiction |].
  cbv zeta. match goal with |- context [if ?b then _ else _] => destruct b end;
    [| rewrite renderInto_zoom]; reflexivity.
Qed.

Lemma clampZoom_fin (z : R) :
  clampZoom (Fin z) = Fin (Rmax 0.1 (Rmin 1 (math_floor (z * 0.95 * 100) / 100))).
Proof.
  unfold clampZoom. cbn [num_mulR num_floor num_divR].
  destruct (Req_EM_T 100 0); [lra |]. reflexivity.
Qed.

(** ** Concrete geometries *)

Lemma geometry_coincident : geometryOf detCoincident = mkGeometry (mkPoint 5 5) 0 0.
Proof.
  unfold geometryOf, faceGeometry, getCentroid; cbn.
  replace ((0 + 5) / 1) with 5 by lra.
  replace (5 - 5) with 0 by ring. rewrite Rmult_0_l, Rplus_0_l, sqrt_0.
  replace ((5 + 5) / 2) with 5 by lra.
  unfold atan2. rdec. reflexivity.
Qed.

Lemma geometry_far : geometryOf detFar = mkGeometry (mkPoint 5 5) 0 210.
Proof.
  unfold geometryOf, faceGeometry, getCentroid; cbn.
  replace ((0 + -100) / 1) with (-100) by lra.
  replace ((0 + 110) / 1) with 110 by lra.
  replace ((0 + 5) / 1) with 5 by lra.
  replace (5 - 5) with 0 by ring.
  replace ((-100 + 110) / 2) with 5 by lra.
  replace ((5 + 5) / 2) with 5 by lra.
  replace (110 - -100) with 210 by ring.
  rewrite Rmult_0_l, Rplus_0_r, sqrt_square by lra.
  unfold atan2. rdec. replace (0 / 210) with 0 by field. rewrite atan_0. reflexivity.
Qed.

Lemma axisUpdate_pos (ms : num) (rot e t : R) :
  0 < rot -> axisUpdate ms rot e t = num_min ms (Fin ((e - t) / rot)).
Proof. intros H. unfold axisUpdate. rdec. reflexivity. Qed.

Lemma axisUpdate_neg (ms : num) (rot e t : R) :
  rot < 0 -> axisUpdate ms rot e t = num_min ms (Fin (- t / rot)).
Proof. intros H. unfold axisUpdate. rdec. reflexivity. Qed.

Lemma axisUpdate_zero (ms : num) (rot e t : R) :
  rot = 0 -> axisUpdate ms rot e t = ms.
Proof. intros H. unfold axisUpdate. rdec. reflexivity. Qed.

Ltac eval_axis :=
  repeat match goal with
  | |- context [axisUpdate ?ms ?r ?e ?t] =>
      first [ rewrite (axisUpdate_pos ms r e t) by lra
            | rewrite (axisUpdate_neg ms r e t) by lra
            | rewrite (axisUpdate_zero ms r e t) by lra ]
  end.

Ltac eval_rmin :=
  repeat match goal with
  | |- context [Rmin ?a ?b] =>
      first [ rewrite (Rmin_left a b) by lra | rewrite (Rmin_right a b) by lra ]
  end.

Lemma maxScale_img10 (d : R) :
  maxScaleForImage 10 10 img10 (mkGeometry (mkPoint 5 5) 0 d) = Fin (4/5).
Proof.
  unfold maxScaleForImage; cbn [angle eyesCenter].
  rewrite Ropp_0, cos_0, sin_0.
  cbn [corners fold_left width height img10 px py].
  unfold cornerUpdate; cbn [px py].
  eval_axis. cbn [num_min]. eval_rmin. apply f_equal; lra.
Qed.

Lemma minSafeZoom_coincident : minSafeZoomOf stCoincident = Fin 0.
Proof.
  unfold minSafeZoomOf, stCoincident, session; cbn [images fold_left canvasWidth canvasHeight].
  unfold safeZoomStep; cbn [detections original].
  rewrite geometry_coincident. unfold frameSafeZoom. rewrite maxScale_img10.
  cbn [num_mulR num_divR eyeDist]. rdec. cbn [num_min]. eval_rmin. apply f_equal; lra.
Qed.

Lemma minSafeZoom_far : minSafeZoomOf stFar = Fin 1.
Proof.
  unfold minSafeZoomOf, stFar, session; cbn [images fold_left canvasWidth canvasHeight].
  unfold safeZoomStep; cbn [detections original].
  rewrite geometry_far. unfold frameSafeZoom. rewrite maxScale_img10.
  cbn [num_mulR num_divR eyeDist]. rdec. cbn [num_min]. eval_rmin. reflexivity.
Qed.

Lemma globalSafeZoom_spec_far : globalSafeZoom_spec stFar = Fin (84/5).
Proof.
  unfold globalSafeZoom_spec, stFar, session; cbn [images fold_right canvasWidth canvasHeight].
  cbn [detections original].
  rewrite geometry_far. unfold frameSafeZoom. rewrite maxScale_img10.
  cbn [num_mulR num_divR eyeDist]. rdec. cbn [num_min]. apply f_equal; lra.
Qed.

Lemma minSafeZoom_noFace : minSafeZoomOf stNoFace = Fin 1.
Proof. reflexivity. Qed.

Lemma floor_0 : math_floor 0 = 0.
Proof. apply (math_floor_spec 0 0%Z). cbn; lra. Qed.

Lemma floor_95 : math_floor 95 = 95.
Proof. apply (math_floor_spec 95 95%Z). cbn; lra. Qed.

(** C5: when the global safe zoom [z] is a finite number, the zoom the
    auto-fit stores is [z] multiplied by 0.95, floored to two decimals,
    then clamped into [0.1, 1.0], in that order; it lies in that range. *)
Theorem autoFit_margin_floor_clamp (st : State) (z : R) :
  images st <> [] -> minSafeZoomOf st = Fin z ->
  zoom (autoFitZoom st) = Fin (Rmax 0.1 (Rmin 1 (math_floor (z * 0.95 * 100) / 100))) /\
  0.1 <= Rmax 0.1 (Rmin 1 (math_floor (z * 0.95 * 100) / 100)) <= 1.
Proof.
  intros Hne Hz. rewrite autoFit_zoom, Hz, clampZoom_fin by exact Hne.
  split; [reflexivity |].
  pose proof (Rmin_l 1 (math_floor (z * 0.95 * 100) / 100)).
  split; [apply Rmax_l |]. apply Rmax_lub; lra.
Qed.

Lemma autoFit_margin_floor_clamp_witness :
  (images stCoincident <> [] /\ minSafeZoomOf stCoincident = Fin 0) /\
  zoom (autoFitZoom stCoincident) = Fin (Rmax 0.1 (Rmin 1 (math_floor (0 * 0.95 * 100) / 100))).
Proof.
  split; [split; [discriminate | exact minSafeZoom_coincident] |].
  apply (autoFit_margin_floor_clamp stCoincident 0);
    [discriminate | exact minSafeZoom_coincident].
Defined.

(** ** The loop over the images *)

Lemma fold_safeZoom_noFace (W H : R) (l : list Item) (acc : num) :
  Forall (fun it => detections it = None) l -> fold_left (safeZoomStep W H) l acc = acc.
Proof.
  intros HF. revert acc. induction HF as [| it l' Hit _ IH]; intros acc; [reflexivity |].
  cbn. unfold safeZoomStep at 2. rewrite Hit. apply IH.
Qed.

(** C6 (as the code does it): when there are images but none has a
    detected face, the auto-fit stores 0.95, the starting value 1.0 after
    the 0.95 margin and the flooring. *)
Theorem autoFit_no_geometry (st : State) :
  images st <> [] -> Forall (fun it => detections it = None) (images st) ->
  zoom (autoFitZoom st) = Fin 0.95.
Proof.
  intros Hne HF. rewrite autoFit_zoom by exact Hne.
  unfold minSafeZoomOf. rewrite fold_safeZoom_noFace by exact HF.
  rewrite clampZoom_fin. replace (1 * 0.95 * 100) with 95 by lra.
  rewrite floor_95. apply f_equal.
  rewrite Rmin_right by lra. rewrite Rmax_right by lra. lra.
Qed.

Lemma autoFit_no_geometry_witness :
  (images stNoFace <> [] /\ Forall (fun it => detections it = None) (images stNoFace)) /\
  zoom (autoFitZoom stNoFace) = Fin 0.95.
Proof.
  assert (HF : Forall (fun it => detections it = None) (images stNoFace))
    by (repeat constructor).
  split; [split; [discriminate | exact HF] |].
  apply autoFit_no_geometry; [discriminate | exact HF].
Defined.

(** C6 counterexample: one image without a face; the auto-fit stores
    0.95, not 1.0. *)
Lemma autoFit_no_geometry_not_one : zoom (autoFitZoom stNoFace) <> Fin 1.
Proof.
  rewrite autoFit_zoom by discriminate. rewrite minSafeZoom_noFace, clampZoom_fin.
  replace (1 * 0.95 * 100) with 95 by lra. rewrite floor_95.
  rewrite Rmin_right by lra. rewrite Rmax_right by lra.
  intros E. injection E. lra.
Qed.

Lemma num_min_pinf (x y : num) : num_min x y = PInf -> x = PInf /\ y = PInf.
Proof. destruct x, y; cbn; intros E; try discriminate; auto. Qed.

Lemma num_min_fin (x y : num) (z : R) :
  num_min x y = Fin z ->
  (forall a, x = Fin a -> z <= a) /\ (forall b, y = Fin b -> z <= b) /\
  (x = PInf \/ exists a, x = Fin a).
Proof.
  destruct x as [a| | |], y as [b| | |]; cbn; intros E; try discriminate;
    injection E as <-;
    (split; [intros ? Eq; try discriminate; injection Eq as <-;
             first [apply Rmin_l | apply Rle_refl] |]);
    (split; [intros ? Eq; try discriminate; injection Eq as <-;
             first [apply Rmin_r | apply Rle_refl] |]);
    eauto.
Qed.

(** The loop result is below every frame's safe zoom. *)
Lemma fold_safeZoom_le (W H : R) (l : list Item) (acc : num) (z : R) :
  fold_left (safeZoomStep W H) l acc = Fin z ->
  (forall a, acc = Fin a -> z <= a) /\ (acc = PInf \/ exists a, acc = Fin a) /\
  (forall it det s, In it l -> detections it = Some det ->
     frameSafeZoom W H (original it) (geometryOf det) = Fin s -> z <= s).
Proof.
  revert acc. induction l as [| it l IH]; intros acc Hf; cbn in Hf.
  - subst acc. repeat split; eauto; [intros a E; injection E as <-; lra | intros ? ? ? []].
  - destruct (IH _ Hf) as (H1 & H2 & H3). unfold safeZoomStep in H1, H2, H3.
    destruct (detections it) as [d|] eqn:Ed.
    + destruct H2 as [Hp | [a' Ha']].
      * destruct (num_min_pinf _ _ Hp) as [-> Hs]. repeat split; eauto; [discriminate |].
        intros it' det s [<- | Hin] Ed' Hs'; [| eauto].
        rewrite Ed in Ed'. injection Ed' as <-. rewrite Hs in Hs'. discriminate.
      * destruct (num_min_fin _ _ _ Ha') as (K1 & K2 & K3). specialize (H1 _ Ha').
        repeat split; [intros a Ea; specialize (K1 _ Ea); lra | exact K3 |].
        intros it' det s [<- | Hin] Ed' Hs'; [| eauto].
        rewrite Ed in Ed'. injection Ed' as <-. specialize (K2 _ Hs'). lra.
    + repeat split; eauto. intros it' det s [<- | Hin] Ed' Hs'; [| eauto].
      rewrite Ed in Ed'. discriminate.
Qed.

Lemma clampZoom_nonpos (z : R) : z <= 0 -> clampZoom (Fin z) = Fin 0.1.
Proof.
  intros Hz. rewrite clampZoom_fin. apply f_equal.
  pose proof (math_floor_le (z * 0.95 * 100)).
  rewrite Rmin_right by lra. apply Rmax_left. lra.
Qed.

(** C7 (as the code does it): the auto-fit has no failure outcome; when
    the global safe zoom is a finite number that is zero or negative, it
    stores the lower clamp 0.1 in place of the previous zoom. *)
Theorem autoFit_nonpositive_stores_min (st : State) (z : R) :
  images st <> [] -> minSafeZoomOf st = Fin z -> z <= 0 ->
  zoom (autoFitZoom st) = Fin 0.1.
Proof.
  intros Hne Hz Hle. rewrite autoFit_zoom, Hz by exact Hne.
  apply clampZoom_nonpos, Hle.
Qed.

Lemma autoFit_nonpositive_stores_min_witness :
  (images stCoincident <> [] /\ minSafeZoomOf stCoincident = Fin 0 /\ (0:R) <= 0) /\
  zoom (autoFitZoom stCoincident) = Fin 0.1.
Proof.
  split; [split; [discriminate | split; [exact minSafeZoom_coincident | lra]] |].
  apply (autoFit_nonpositive_stores_min stCoincident 0);
    [discriminate | exact minSafeZoom_coincident | lra].
Defined.

(** C7 counterexample: one image whose eyes coincide gives a global safe
    zoom of 0; the auto-fit does not keep the previous zoom 0.25 but
    stores 0.1. *)
Lemma autoFit_nonpositive_changes_zoom :
  minSafeZoomOf stCoincident = Fin 0 /\ zoom stCoincident = Fin 0.25 /\
  zoom (autoFitZoom stCoincident) = Fin 0.1 /\ zoom (autoFitZoom stCoincident) <> zoom stCoincident.
Proof.
  assert (E : zoom (autoFitZoom stCoincident) = Fin 0.1).
  { rewrite autoFit_zoom by discriminate. rewrite minSafeZoom_coincident.
    apply clampZoom_nonpos; lra. }
  split; [exact minSafeZoom_coincident | split; [reflexivity | split; [exact E |]]].
  rewrite E. cbn. intros F. injection F. lra.
Qed.

(** ** Which branch [renderFrame] takes *)

Lemma renderFrame_aligned (st : State) (i : nat) (item : Item) (det : Detection) :
  nth_error (images st) i = Some item -> detections item = Some det -> alignEyes st = true ->
  renderFrame st i =
  Some (DrawAligned (alignTransform (canvasWidth st) (canvasHeight st) (zoom st) (geometryOf det))
                    (original item)).
Proof. intros Hi Hd Ha. unfold renderFrame. rewrite Hi, Hd, Ha. reflexivity. Qed.

Lemma alignTransform_zero_dist (W H z : R) (g : Geometry) :
  eyeDist g = 0 -> 0 < z * W ->
  alignTransform W H (Fin z) g =
  ctx_translate (ctx_rotate (ctx_translate identity (W * 0.5) (H * 0.4)) (- angle g))
                (- px (eyesCenter g)) (- py (eyesCenter g)).
Proof.
  intros Hd Hp. unfold alignTransform. cbn [num_mulR num_divR]. rewrite Hd. rdec.
  reflexivity.
Qed.

(** ** The values a frame's safe zoom can take *)

Definition finOrPInf (x : num) : Prop := x = PInf \/ exists a, x = Fin a.

Lemma num_min_finOrPInf (x y : num) : finOrPInf x -> finOrPInf y -> finOrPInf (num_min x y).
Proof.
  intros [-> | [a ->]] [-> | [b ->]]; cbn; unfold finOrPInf; eauto.
Qed.

Lemma axisUpdate_finOrPInf (ms : num) (rot e t : R) : finOrPInf ms -> finOrPInf (axisUpdate ms rot e t).
Proof.
  intros Hms. unfold axisUpdate.
  destruct (Rlt_dec 0 rot); [apply num_min_finOrPInf; [exact Hms | right; eauto] |].
  destruct (Rlt_dec rot 0); [apply num_min_finOrPInf; [exact Hms | right; eauto] | exact Hms].
Qed.

Lemma maxScale_finOrPInf (W H : R) (img : Image) (g : Geometry) :
  finOrPInf (maxScaleForImage W H img g).
Proof.
  unfold maxScaleForImage.
  assert (Hgen : forall l ms, finOrPInf ms ->
            finOrPInf (fold_left (cornerUpdate W H (W * 0.5) (H * 0.4) (eyesCenter g)
                                    (cos (- angle g)) (sin (- angle g))) l ms)).
  { induction l as [|p l IH]; intros ms Hms; [exact Hms |].
    cbn [fold_left]. apply IH. unfold cornerUpdate.
    apply axisUpdate_finOrPInf, axisUpdate_finOrPInf, Hms. }
  apply Hgen. left. reflexivity.
Qed.

Lemma eyeDist_nonneg (det : Detection) : 0 <= eyeDist (geometryOf det).
Proof. unfold geometryOf, faceGeometry. cbn [eyeDist]. apply sqrt_pos. Qed.

(** On a canvas of positive width a frame's safe zoom is finite, [+Infinity]
    or [NaN], never [-Infinity]; [NaN] arises only at eye distance 0 with
    no finite corner bound. *)
Lemma frameSafeZoom_cases (W H : R) (img : Image) (det : Detection) :
  0 < W ->
  frameSafeZoom W H img (geometryOf det) <> NaN -> finOrPInf (frameSafeZoom W H img (geometryOf det)).
Proof.
  intros HW Hn. revert Hn. unfold frameSafeZoom.
  pose proof (eyeDist_nonneg det) as Hd.
  destruct (maxScale_finOrPInf W H img (geometryOf det)) as [-> | [a ->]]; cbn [num_mulR num_divR].
  - destruct (Rlt_dec 0 (eyeDist (geometryOf det))).
    + cbn [num_divR]. rdec. intros _. left. reflexivity.
    + destruct (Rlt_dec (eyeDist (geometryOf det)) 0); [lra |]. cbn. intros Hn; contradiction.
  - rdec; intros _; right; eauto.
Qed.

(** When no frame's safe zoom is [NaN], the loop over the frames from a
    finite value stays finite and does not grow. *)
Lemma fold_safeZoom_fin (W H : R) (l : list Item) (a : R) :
  0 < W ->
  (forall it d, In it l -> detections it = Some d ->
     frameSafeZoom W H (original it) (geometryOf d) <> NaN) ->
  exists m, fold_left (safeZoomStep W H) l (Fin a) = Fin m /\ m <= a.
Proof.
  intros HW. revert a. induction l as [|it l IH]; intros a Hl.
  - exists a. split; [reflexivity | lra].
  - cbn [fold_left]. unfold safeZoomStep at 2.
    assert (Hl' : forall it' d, In it' l -> detections it' = Some d ->
                    frameSafeZoom W H (original it') (geometryOf d) <> NaN)
      by (intros it' d Hin; apply Hl; right; exact Hin).
    destruct (detections it) as [d|] eqn:Ed.
    + destruct (frameSafeZoom_cases W H (original it) d HW (Hl it d (or_introl eq_refl) Ed))
        as [E | [b E]]; rewrite E; cbn [num_min].
      * apply IH, Hl'.
      * destruct (IH (Rmin a b) Hl') as (m & Em & Hm). exists m. split; [exact Em |].
        pose proof (Rmin_l a b). lra.
    + apply IH, Hl'.
Qed.

Lemma fold_safeZoom_from_nan (W H : R) (l : list Item) :
  fold_left (safeZoomStep W H) l NaN = NaN.
Proof.
  induction l as [|it l IH]; [reflexivity |].
  cbn [fold_left]. unfold safeZoomStep at 2. destruct (detections it); exact IH.
Qed.

Lemma fold_safeZoom_nan (W H : R) (l : list Item) (acc : num) :
  (exists it d, In it l /\ detections it = Some d /\
     frameSafeZoom W H (original it) (geometryOf d) = NaN) ->
  fold_left (safeZoomStep W H) l acc = NaN.
Proof.
  revert acc. induction l as [|it l IH]; intros acc (it' & d & Hin & Hd & Hn); [destruct Hin |].
  cbn [fold_left]. destruct Hin as [<- | Hin].
  - unfold safeZoomStep at 2. rewrite Hd, Hn.
    replace (num_min acc NaN) with NaN by (destruct acc; reflexivity).
    apply fold_safeZoom_from_nan.
  - apply IH. exists it', d. auto.
Qed.

(** C4 (as the code does it): there is no epsilon guard.  With alignment
    on, a frame with a detected face is drawn on the aligned path whatever
    its eye distance: for a non-zero distance the transform scales by
    [zoom * W / eyeDist], however small the distance; at distance 0 the
    scale is infinite, the canvas ignores that [scale] call and the image
    is drawn unscaled.  Such a frame is not left out of the auto-fit: when
    its corners give a finite bound its safe zoom is 0, and the auto-fit
    stores 0.1, unless some frame's safe zoom is [NaN] (eye distance 0 and
    no finite corner bound), in which case it stores [NaN]. *)
Theorem degenerate_frame_not_guarded (st : State) (i : nat) (item : Item) (det : Detection) :
  nth_error (images st) i = Some item -> detections item = Some det -> alignEyes st = true ->
  0 < canvasWidth st ->
  let W := canvasWidth st in
  let H := canvasHeight st in
  let g := geometryOf det in
  renderFrame st i = Some (DrawAligned (alignTransform W H (zoom st) g) (original item)) /\
  (forall z, zoom st = Fin z -> eyeDist g <> 0 ->
     alignTransform W H (zoom st) g =
     ctx_translate (mkMatrix (z * W / eyeDist g * cos (- angle g)) (z * W / eyeDist g * sin (- angle g))
                             (- (z * W / eyeDist g * sin (- angle g))) (z * W / eyeDist g * cos (- angle g))
                             (W * 0.5) (H * 0.4))
                   (- px (eyesCenter g)) (- py (eyesCenter g))) /\
  (forall z, zoom st = Fin z -> 0 < z -> eyeDist g = 0 ->
     alignTransform W H (zoom st) g =
     ctx_translate (ctx_rotate (ctx_translate identity (W * 0.5) (H * 0.4)) (- angle g))
                   (- px (eyesCenter g)) (- py (eyesCenter g))) /\
  (forall s, eyeDist g = 0 -> maxScaleForImage W H (original item) g = Fin s ->
     frameSafeZoom W H (original item) g = Fin 0 /\
     ((forall it d, In it (images st) -> detections it = Some d ->
         frameSafeZoom W H (original it) (geometryOf d) <> NaN) ->
      zoom (autoFitZoom st) = Fin 0.1) /\
     ((exists it d, In it (images st) /\ detections it = Some d /\
         frameSafeZoom W H (original it) (geometryOf d) = NaN) ->
      zoom (autoFitZoom st) = NaN)).
Proof.
  intros Hi Hd Ha HW. cbv zeta.
  assert (Hne : images st <> []) by (intros E; rewrite E in Hi; destruct i; discriminate).
  split; [apply renderFrame_aligned; assumption |].
  split.
  { intros z Hz Hnz. rewrite Hz, alignTransform_fin by exact Hnz. reflexivity. }
  split.
  { intros z Hz Hpos H0. rewrite Hz. apply alignTransform_zero_dist; [exact H0 | nra]. }
  intros s H0 Hs.
  assert (Hf : frameSafeZoom (canvasWidth st) (canvasHeight st) (original item) (geometryOf det) = Fin 0).
  { unfold frameSafeZoom. rewrite Hs, H0. cbn [num_mulR num_divR]. rdec.
    apply f_equal. field. lra. }
  split; [exact Hf |]. split.
  - intros Hnan.
    destruct (fold_safeZoom_fin (canvasWidth st) (canvasHeight st) (images st) 1 HW Hnan) as (m & Hm & _).
    change (fold_left (safeZoomStep (canvasWidth st) (canvasHeight st)) (images st) (Fin 1))
      with (minSafeZoomOf st) in Hm.
    destruct (fold_safeZoom_le _ _ _ _ _ Hm) as (_ & _ & Hle).
    specialize (Hle item det 0 (nth_error_In _ _ Hi) Hd Hf).
    rewrite autoFit_zoom, Hm by exact Hne. apply clampZoom_nonpos, Hle.
  - intros Hex. rewrite autoFit_zoom by exact Hne.
    unfold minSafeZoomOf. rewrite fold_safeZoom_nan by exact Hex. reflexivity.
Qed.

Lemma degenerate_frame_not_guarded_witness :
  (nth_error (images stCoincident) 0 = Some (mkItem img10 (Some detCoincident)) /\
   detections (mkItem img10 (Some detCoincident)) = Some detCoincident /\
   alignEyes stCoincident = true /\ 0 < canvasWidth stCoincident) /\
  zoom (autoFitZoom stCoincident) = Fin 0.1.
Proof.
  assert (H0 : eyeDist (geometryOf detCoincident) = 0) by (rewrite geometry_coincident; reflexivity).
  assert (HW : 0 < canvasWidth stCoincident) by (cbn; lra).
  assert (Hs : maxScaleForImage (canvasWidth stCoincident) (canvasHeight stCoincident) img10
                 (geometryOf detCoincident) = Fin (4/5)).
  { cbn [canvasWidth canvasHeight stCoincident session].
    rewrite geometry_coincident. apply maxScale_img10. }
  split; [repeat split; try reflexivity; assumption |].
  destruct (degenerate_frame_not_guarded stCoincident 0 (mkItem img10 (Some detCoincident))
              detCoincident eq_refl eq_refl eq_refl HW) as (_ & _ & _ & H4).
  destruct (H4 (4/5) H0 Hs) as (Hf & Hz & _).
  apply Hz. intros it d [<- | []] Ed. cbn in Ed. injection Ed as <-.
  cbn [original] in Hf |- *. rewrite Hf. discriminate.
Defined.

(** C4 counterexample: a frame whose two eyes are detected at the same
    point (eye distance 0) is not letterboxed, and it is not left out of
    the auto-fit: the global safe zoom drops from the starting 1 to 0. *)
Lemma degenerate_frame_aligned_and_counted :
  eyeDist (geometryOf detCoincident) = 0 /\
  isLetterbox (renderFrame stCoincident 0) = false /\
  minSafeZoomOf stCoincident = Fin 0.
Proof.
  split; [rewrite geometry_coincident; reflexivity |].
  split; [reflexivity | exact minSafeZoom_coincident].
Qed.

(** ** [getCentroid] *)





(** ** The bound of one image *)

Lemma axisUpdate_pos_bound (ms : num) (rot e t : R) :
  0 < e - t -> 0 < t ->
  (ms = PInf \/ exists s, ms = Fin s /\ 0 < s) ->
  (axisUpdate ms rot e t = PInf \/ exists s, axisUpdate ms rot e t = Fin s /\ 0 < s).
Proof.
  intros He Ht Hms. unfold axisUpdate.
  assert (Hmin : forall b, 0 < b -> exists s, num_min ms (Fin b) = Fin s /\ 0 < s).
  { intros b Hb. destruct Hms as [-> | [s [-> Hs]]]; cbn.
    - exists b; split; [reflexivity | exact Hb].
    - exists (Rmin s b); split; [reflexivity | apply Rmin_glb_lt; assumption]. }
  destruct (Rlt_dec 0 rot) as [Hp |]; [right; apply Hmin, Rdiv_lt_0_compat; assumption |].
  destruct (Rlt_dec rot 0) as [Hn |]; [| exact Hms].
  right; apply Hmin. replace (- t / rot) with (t / - rot) by (field; lra).
  apply Rdiv_lt_0_compat; lra.
Qed.

Lemma maxScale_pos (W H : R) (img : Image) (g : Geometry) (s : R) :
  0 < W -> 0 < H -> maxScaleForImage W H img g = Fin s -> 0 < s.
Proof.
  intros HW HH. unfold maxScaleForImage.
  assert (Inv : forall l ms, (ms = PInf \/ exists s, ms = Fin s /\ 0 < s) ->
     let r := fold_left (cornerUpdate W H (W * 0.5) (H * 0.4) (eyesCenter g)
                                      (cos (- angle g)) (sin (- angle g))) l ms in
     r = PInf \/ exists s, r = Fin s /\ 0 < s).
  { induction l as [| p l IH]; intros ms Hms; cbn; [exact Hms |].
    apply IH. unfold cornerUpdate.
    apply axisUpdate_pos_bound; [lra | lra |].
    apply axisUpdate_pos_bound; [lra | lra | exact Hms]. }
  intros E. destruct (Inv (corners img) PInf (or_introl eq_refl)) as [F | [s' [F Hs']]];
    cbn zeta in F; rewrite E in F; [discriminate | injection F as ->; exact Hs'].
Qed.

(** C8 (as the code does it): the safe zoom of a frame is proportional to
    its eye distance.  Decreasing the eye distance while keeping the eyes
    center, the angle and the raster fixed never increases the frame's
    safe zoom. *)
Theorem safeZoom_monotone_eyeDist (W H : R) (img : Image) (c : Point) (a d1 d2 s : R) :
  0 < W -> 0 < H -> maxScaleForImage W H img (mkGeometry c a d2) = Fin s -> d1 <= d2 ->
  frameSafeZoom W H img (mkGeometry c a d1) = Fin (s * d1 / W) /\
  frameSafeZoom W H img (mkGeometry c a d2) = Fin (s * d2 / W) /\
  s * d1 / W <= s * d2 / W.
Proof.
  intros HW HH Hs Hd.
  assert (Hs1 : maxScaleForImage W H img (mkGeometry c a d1) = Fin s) by exact Hs.
  pose proof (maxScale_pos _ _ _ _ _ HW HH Hs) as Hpos.
  unfold frameSafeZoom. rewrite Hs1, Hs. cbn [num_mulR num_divR eyeDist].
  destruct (Req_EM_T W 0); [lra |].
  split; [reflexivity | split; [reflexivity |]].
  unfold Rdiv. apply Rmult_le_compat_r; [apply Rlt_le, Rinv_0_lt_compat, HW |].
  apply Rmult_le_compat_l; lra.
Qed.

Lemma safeZoom_monotone_eyeDist_witness :
  (0 < (10:R) /\ 0 < (10:R) /\
   maxScaleForImage 10 10 img10 (mkGeometry (mkPoint 5 5) 0 2) = Fin (4/5) /\ (1:R) <= 2) /\
  frameSafeZoom 10 10 img10 (mkGeometry (mkPoint 5 5) 0 1) = Fin (4/5 * 1 / 10).
Proof.
  split; [repeat split; try lra; apply maxScale_img10 |].
  apply (safeZoom_monotone_eyeDist 10 10 img10 (mkPoint 5 5) 0 1 2 (4/5));
    [lra | lra | apply maxScale_img10 | lra].
Defined.

(** C8 counterexample: halving the eye distance from 2 to 1 (same eyes
    center, angle and raster) halves the safe zoom, from 0.16 to 0.08. *)
Lemma safeZoom_decreases_with_eyeDist :
  frameSafeZoom 10 10 img10 (mkGeometry (mkPoint 5 5) 0 2) = Fin (4/25) /\
  frameSafeZoom 10 10 img10 (mkGeometry (mkPoint 5 5) 0 1) = Fin (2/25) /\
  (2/25 : R) < 4/25.
Proof.
  unfold frameSafeZoom. rewrite !maxScale_img10. cbn [num_mulR num_divR eyeDist]. rdec.
  split; [apply f_equal; field | split; [apply f_equal; field | lra]].
Qed.

(** ** The auto-fit against the spec's formulation *)

Lemma num_min_assoc (x y z : num) : num_min x (num_min y z) = num_min (num_min x y) z.
Proof.
  destruct x, y, z; cbn; try reflexivity. apply f_equal, Rmin_assoc.
Qed.

Lemma num_min_PInf_l (x : num) : num_min PInf x = x.
Proof. destruct x; reflexivity. Qed.

Lemma num_min_PInf_r (x : num) : num_min x PInf = x.
Proof. destruct x; reflexivity. Qed.

Lemma axisUpdate_axisBound (ms : num) (rot e t : R) :
  axisUpdate ms rot e t =
  match axisBound rot e t with Some v => num_min ms (Fin v) | None => ms end.
Proof. unfold axisUpdate, axisBound. destruct (Rlt_dec 0 rot); [| destruct (Rlt_dec rot 0)]; reflexivity. Qed.

Lemma fold_addBound (L : list (option R)) (acc : num) :
  fold_left addBound L acc = num_min acc (minBounds L).
Proof.
  revert acc. induction L as [| [v|] L IH]; intros acc; cbn [fold_left addBound].
  - symmetry; apply num_min_PInf_r.
  - rewrite IH. change (minBounds (Some v :: L)) with (num_min (Fin v) (minBounds L)).
    rewrite num_min_assoc. reflexivity.
  - rewrite IH. reflexivity.
Qed.

Lemma maxScale_as_bounds (W H : R) (img : Image) (g : Geometry) :
  maxScaleForImage W H img g = minBounds (cornerBounds W H img g).
Proof.
  unfold maxScaleForImage, cornerBounds. cbv zeta.
  rewrite <- (num_min_PInf_l (minBounds _)), <- fold_addBound.
  generalize PInf. induction (corners img) as [| p l IH]; intros acc; [reflexivity |].
  cbn [fold_left flat_map]. rewrite fold_left_app, <- IH.
  unfold cornerUpdate. rewrite !axisUpdate_axisBound. reflexivity.
Qed.

Lemma fold_frames (W H : R) (l : list Item) (acc : num) :
  fold_left (safeZoomStep W H) l acc =
  num_min acc (fold_right (fun item acc =>
                             match detections item with
                             | None => acc
                             | Some det => num_min (frameSafeZoom W H (original item) (geometryOf det)) acc
                             end) PInf l).
Proof.
  revert acc. induction l as [| it l IH]; intros acc; cbn [fold_left fold_right].
  - symmetry; apply num_min_PInf_r.
  - rewrite IH. unfold safeZoomStep.
    destruct (detections it); [rewrite num_min_assoc |]; reflexivity.
Qed.

(** C1 (as the code does it): the maximum scale of an image is the minimum
    of its per-corner, per-axis bounds ([(extent - target) / rot] for
    [rot > 0], [- target / rot] for [rot < 0], none for [rot = 0]); its
    safe zoom is [scale * eyeDistance / canvasWidth]; and the global safe
    zoom is the minimum of 1.0 and the safe zooms of all frames with a
    detected face. *)
Theorem autoFit_bound_structure :
  (forall W H img g, maxScaleForImage W H img g = minBounds (cornerBounds W H img g)) /\
  (forall W H img g s, maxScaleForImage W H img g = Fin s -> W <> 0 ->
     frameSafeZoom W H img g = Fin (s * eyeDist g / W)) /\
  (forall st, minSafeZoomOf st = num_min (Fin 1) (globalSafeZoom_spec st)).
Proof.
  split; [exact maxScale_as_bounds |].
  split.
  - intros W H img g s Hs HW. unfold frameSafeZoom. rewrite Hs. cbn [num_mulR num_divR].
    destruct (Req_EM_T W 0); [contradiction | reflexivity].
  - intros st. unfold minSafeZoomOf, globalSafeZoom_spec. apply fold_frames.
Qed.

(** C1 counterexample: a frame whose eye points lie far apart, outside the
    raster, has safe zoom 16.8; the global safe zoom the code computes is
    1, the value the loop starts from, not the minimum 16.8 over the
    frames. *)
Lemma global_safe_zoom_capped_at_one :
  globalSafeZoom_spec stFar = Fin (84/5) /\ minSafeZoomOf stFar = Fin 1 /\
  minSafeZoomOf stFar <> globalSafeZoom_spec stFar.
Proof.
  split; [exact globalSafeZoom_spec_far | split; [exact minSafeZoom_far |]].
  rewrite globalSafeZoom_spec_far, minSafeZoom_far. intros E. injection E. lra.
Qed.

(** * Further properties of [script.js] *)

(** ** Soundness of the auto-fit bound *)

Lemma minBounds_le (L : list (option R)) (b : R) :
  In (Some b) L -> exists m, minBounds L = Fin m /\ m <= b.
Proof.
  induction L as [| o L IH]; intros Hin; [destruct Hin |].
  assert (Shape : minBounds L = PInf \/ exists m, minBounds L = Fin m).
  { clear. induction L as [| [v|] L IH]; [left; reflexivity | | exact IH].
    right. change (minBounds (Some v :: L)) with (num_min (Fin v) (minBounds L)).
    destruct IH as [-> | [m ->]]; cbn; eauto. }
  destruct Hin as [E | Hin].
  - subst o. change (minBounds (Some b :: L)) with (num_min (Fin b) (minBounds L)).
    destruct Shape as [-> | [m ->]]; cbn.
    + exists b; split; [reflexivity | apply Rle_refl].
    + exists (Rmin b m); split; [reflexivity | apply Rmin_l].
  - destruct (IH Hin) as [m [Hm Hle]].
    destruct o as [v|]; [| exists m; split; assumption].
    change (minBounds (Some v :: L)) with (num_min (Fin v) (minBounds L)).
    rewrite Hm. cbn. exists (Rmin v m). split; [reflexivity |].
    pose proof (Rmin_r v m). lra.
Qed.

Lemma axis_fits (s rot extent target : R) :
  0 <= s -> 0 <= target <= extent ->
  (forall b, axisBound rot extent target = Some b -> s <= b) ->
  0 <= s * rot + target <= extent.
Proof.
  intros Hs Ht Hb. unfold axisBound in Hb.
  destruct (Rlt_dec 0 rot) as [Hp |].
  - specialize (Hb _ eq_refl).
    apply (Rmult_le_compat_r rot) in Hb; [| lra].
    unfold Rdiv in Hb. rewrite Rmult_assoc, Rinv_l, Rmult_1_r in Hb by lra. nra.
  - destruct (Rlt_dec rot 0) as [Hn |].
    + specialize (Hb _ eq_refl).
      apply (Rmult_le_compat_r (- rot)) in Hb; [| lra].
      replace (- target / rot * - rot) with target in Hb by (field; lra). nra.
    + replace rot with 0 by lra. lra.
Qed.

Lemma transform_corner (W H z : R) (g : Geometry) (p : Point) :
  eyeDist g <> 0 ->
  let s := z * W / eyeDist g in
  let relX := px p - px (eyesCenter g) in
  let relY := py p - py (eyesCenter g) in
  let cs := cos (- angle g) in
  let sn := sin (- angle g) in
  transformPoint (alignTransform W H (Fin z) g) p =
  mkPoint (s * (relX * cs - relY * sn) + W * 0.5) (s * (relX * sn + relY * cs) + H * 0.4).
Proof.
  intros Hd. rewrite alignTransform_fin by exact Hd.
  unfold transformPoint, ctx_translate; cbn. f_equal; ring.
Qed.

Lemma frame_fits (W H z : R) (img : Image) (g : Geometry) :
  0 < W -> 0 < H -> 0 < eyeDist g -> 0 <= z ->
  (forall sz, frameSafeZoom W H img g = Fin sz -> z <= sz) ->
  forall p, In p (corners img) -> inCanvas W H (transformPoint (alignTransform W H (Fin z) g) p).
Proof.
  intros HW HH Hd Hz Hsz p Hp.
  rewrite transform_corner by lra. cbv zeta.
  set (s := z * W / eyeDist g).
  assert (Hs0 : 0 <= s) by (unfold s; apply Rmult_le_pos; [nra | apply Rlt_le, Rinv_0_lt_compat, Hd]).
  assert (Hb : forall b, In (Some b) (cornerBounds W H img g) -> s <= b).
  { intros b Hin. destruct (minBounds_le _ _ Hin) as [m [Hm Hle]].
    rewrite <- maxScale_as_bounds in Hm.
    assert (Hf : frameSafeZoom W H img g = Fin (m * eyeDist g / W)).
    { unfold frameSafeZoom. rewrite Hm. cbn [num_mulR num_divR].
      destruct (Req_EM_T W 0); [lra | reflexivity]. }
    specialize (Hsz _ Hf).
    enough (s <= m) by lra.
    unfold s. apply (Rmult_le_reg_r (eyeDist g / W)).
    - apply Rdiv_lt_0_compat; assumption.
    - replace (z * W / eyeDist g * (eyeDist g / W)) with z by (field; lra).
      replace (m * (eyeDist g / W)) with (m * eyeDist g / W) by (field; lra). exact Hsz. }
  assert (HinB : forall o, In o [axisBound ((px p - px (eyesCenter g)) * cos (- angle g) -
                                           (py p - py (eyesCenter g)) * sin (- angle g)) W (W * 0.5);
                                axisBound ((px p - px (eyesCenter g)) * sin (- angle g) +
                                           (py p - py (eyesCenter g)) * cos (- angle g)) H (H * 0.4)] ->
                         In o (cornerBounds W H img g)).
  { intros o Ho. unfold cornerBounds. apply in_flat_map. exists p. split; assumption. }
  split; cbn [px py]; apply axis_fits; try lra; intros b Eb; apply Hb, HinB.
  - left. exact Eb.
  - right; left. exact Eb.
Qed.

(** Every corner of an image lands inside the canvas when the image is
    aligned at a zoom not above its safe zoom (eye distance, canvas sizes
    positive). *)
Theorem corners_inside_below_safeZoom (W H z : R) (img : Image) (g : Geometry) :
  0 < W -> 0 < H -> 0 < eyeDist g -> 0 <= z ->
  (forall sz, frameSafeZoom W H img g = Fin sz -> z <= sz) ->
  forall p, In p (corners img) -> inCanvas W H (transformPoint (alignTransform W H (Fin z) g) p).
Proof. exact (frame_fits W H z img g). Qed.

Lemma frameSafeZoom_img10 (d : R) :
  frameSafeZoom 10 10 img10 (mkGeometry (mkPoint 5 5) 0 d) = Fin (4/5 * d / 10).
Proof.
  unfold frameSafeZoom. rewrite maxScale_img10. cbn [num_mulR num_divR eyeDist].
  destruct (Req_EM_T 10 0); [lra | reflexivity].
Qed.

Lemma corners_inside_below_safeZoom_witness :
  (0 < (10:R) /\ 0 < (10:R) /\ 0 < eyeDist (mkGeometry (mkPoint 5 5) 0 2) /\ 0 <= (1/10:R) /\
   (forall sz, frameSafeZoom 10 10 img10 (mkGeometry (mkPoint 5 5) 0 2) = Fin sz -> 1/10 <= sz)) /\
  inCanvas 10 10 (transformPoint (alignTransform 10 10 (Fin (1/10)) (mkGeometry (mkPoint 5 5) 0 2))
                                 (mkPoint 10 10)).
Proof.
  assert (Hsz : forall sz, frameSafeZoom 10 10 img10 (mkGeometry (mkPoint 5 5) 0 2) = Fin sz -> 1/10 <= sz).
  { intros sz E. rewrite frameSafeZoom_img10 in E. injection E as <-. lra. }
  split; [repeat split; cbn; try lra; exact Hsz |].
  apply (corners_inside_below_safeZoom 10 10 (1/10) img10 (mkGeometry (mkPoint 5 5) 0 2));
    [lra | lra | cbn; lra | lra | exact Hsz | cbn; right; right; left; reflexivity].
Defined.

Lemma clampZoom_le (m : R) :
  0.1 <= m -> exists zf, clampZoom (Fin m) = Fin zf /\ 0.1 <= zf <= m.
Proof.
  intros Hm. rewrite clampZoom_fin. eexists; split; [reflexivity |].
  pose proof (math_floor_le (m * 0.95 * 100)).
  pose proof (Rmin_r 1 (math_floor (m * 0.95 * 100) / 100)).
  split; [apply Rmax_l | apply Rmax_lub; lra].
Qed.

Lemma autoFit_canvas (st : State) :
  canvasWidth (autoFitZoom st) = canvasWidth st /\ canvasHeight (autoFitZoom st) = canvasHeight st.
Proof.
  unfold autoFitZoom. destruct (images st); [split; reflexivity |].
  cbv zeta. match goal with |- context [if ?b then _ else _] => destruct b end;
    [| unfold renderInto; destruct renderFrame]; split; reflexivity.
Qed.

(** When the global safe zoom [m] is at least 0.1, the zoom the auto-fit
    stores is at most [m], and at that zoom every corner of every frame
    with a detected face (at positive eye distance) lands inside the
    canvas. *)
Theorem autoFit_result_fits (st : State) (m : R) :
  images st <> [] -> 0 < canvasWidth st -> 0 < canvasHeight st ->
  minSafeZoomOf st = Fin m -> 0.1 <= m ->
  exists zf, zoom (autoFitZoom st) = Fin zf /\ 0.1 <= zf <= m /\
  forall item det p, In item (images st) -> detections item = Some det ->
    0 < eyeDist (geometryOf det) -> In p (corners (original item)) ->
    inCanvas (canvasWidth st) (canvasHeight st)
      (transformPoint (alignTransform (canvasWidth st) (canvasHeight st)
                                      (zoom (autoFitZoom st)) (geometryOf det)) p).
Proof.
  intros Hne HW HH Hm H01.
  destruct (clampZoom_le m H01) as [zf [Hc Hzf]].
  assert (Hz : zoom (autoFitZoom st) = Fin zf) by (rewrite autoFit_zoom, Hm by exact Hne; exact Hc).
  exists zf. split; [exact Hz | split; [exact Hzf |]].
  intros item det p Hin Hd HD Hp. rewrite Hz.
  destruct (fold_safeZoom_le _ _ _ _ _ Hm) as (_ & _ & Hle).
  apply (frame_fits _ _ _ (original item)); try assumption; [lra |].
  intros sz Hsz. specialize (Hle item det sz Hin Hd Hsz). lra.
Qed.

Lemma autoFit_result_fits_witness :
  (images stFar <> [] /\ 0 < canvasWidth stFar /\ 0 < canvasHeight stFar /\
   minSafeZoomOf stFar = Fin 1 /\ (0.1:R) <= 1) /\
  exists zf, zoom (autoFitZoom stFar) = Fin zf /\ 0.1 <= zf <= 1.
Proof.
  split; [repeat split; try discriminate; try (cbn; lra); exact minSafeZoom_far |].
  destruct (autoFit_result_fits stFar 1) as [zf [Hz [Hb _]]];
    [discriminate | cbn; lra | cbn; lra | exact minSafeZoom_far | lra |].
  exists zf. split; assumption.
Defined.

(** ** Range of the stored zoom and of the slider *)

Lemma clampZoom_range (x : num) :
  clampZoom x = NaN \/ exists z, clampZoom x = Fin z /\ 0.1 <= z <= 1.
Proof.
  destruct x as [a| | |].
  - right. rewrite clampZoom_fin. eexists; split; [reflexivity |].
    pose proof (Rmin_l 1 (math_floor (a * 0.95 * 100) / 100)).
    split; [apply Rmax_l | apply Rmax_lub; lra].
  - right. unfold clampZoom. cbn [num_mulR]. rdec. cbn [num_mulR]. rdec.
    cbn [num_floor num_divR]. rdec. cbn.
    eexists; split; [reflexivity | rewrite Rmax_right by lra; lra].
  - right. unfold clampZoom. cbn [num_mulR]. rdec. cbn [num_mulR]. rdec.
    cbn [num_floor num_divR]. rdec. cbn.
    eexists; split; [reflexivity | lra].
  - left. reflexivity.
Qed.

Lemma floor_between (x : R) (lo hi : Z) :
  IZR lo <= x < IZR hi + 1 -> IZR lo <= math_floor x <= IZR hi.
Proof.
  intros [H1 H2]. unfold math_floor. destruct (base_Int_part x) as [B1 B2].
  split.
  - apply IZR_le. assert (IZR lo - 1 < IZR (Int_part x)) by lra.
    rewrite <- minus_IZR in H. apply lt_IZR in H. lia.
  - apply IZR_le. assert (IZR (Int_part x) < IZR hi + 1) by lra.
    rewrite <- plus_IZR in H. apply lt_IZR in H. lia.
Qed.

Lemma autoFit_slider (st : State) :
  images st <> [] ->
  zoomRangeValue (autoFitZoom st) = num_round (num_mulR (zoom (autoFitZoom st)) 100).
Proof.
  intros Hne. rewrite autoFit_zoom by exact Hne. unfold autoFitZoom.
  destruct (images st); [contradiction |]. cbv zeta.
  match goal with |- context [if ?b then _ else _] => destruct b end;
    [| unfold renderInto; destruct renderFrame]; reflexivity.
Qed.

(** Whatever the images, the auto-fit stores either [NaN] or a zoom in
    [0.1, 1.0]; in the second case the slider is set to
    [Math.round(zoom * 100)], an integer between 10 and 100. *)
Theorem autoFit_zoom_range (st : State) :
  images st <> [] ->
  zoom (autoFitZoom st) = NaN \/
  exists z, zoom (autoFitZoom st) = Fin z /\ 0.1 <= z <= 1 /\
    zoomRangeValue (autoFitZoom st) = Fin (math_floor (z * 100 + /2)) /\
    10 <= math_floor (z * 100 + /2) <= 100.
Proof.
  intros Hne. rewrite autoFit_slider by exact Hne. rewrite autoFit_zoom by exact Hne.
  destruct (clampZoom_range (minSafeZoomOf st)) as [-> | [z [-> Hz]]]; [left; reflexivity |].
  right. exists z. split; [reflexivity | split; [exact Hz | split; [reflexivity |]]].
  apply (floor_between _ 10 100). lra.
Qed.

Lemma autoFit_zoom_range_witness :
  images stCoincident <> [] /\
  (zoom (autoFitZoom stCoincident) = NaN \/
   exists z, zoom (autoFitZoom stCoincident) = Fin z /\ 0.1 <= z <= 1).
Proof.
  split; [discriminate |].
  destruct (autoFit_zoom_range stCoincident) as [E | [z [E [Hz _]]]]; [discriminate | left; exact E |].
  right. exists z. split; assumption.
Defined.

(** ** [renderFrame]: the letterbox placement *)

(** The letterbox placement keeps the aspect ratio, is centered, stays
    inside the canvas and fills it in at least one direction. *)
Theorem letterbox_fits (st : State) (i : nat) (item : Item) :
  nth_error (images st) i = Some item ->
  (alignEyes st = false \/ detections item = None) ->
  0 < canvasWidth st -> 0 < canvasHeight st -> 0 < width (original item) -> 0 < height (original item) ->
  exists x y w h, renderFrame st i = Some (DrawLetterbox (original item) x y w h) /\
    w * height (original item) = h * width (original item) /\
    x + w + x = canvasWidth st /\ y + h + y = canvasHeight st /\
    0 <= x /\ 0 <= y /\ (w = canvasWidth st \/ h = canvasHeight st).
Proof.
  intros Hi Hc HW HH Hw Hh. unfold renderFrame. rewrite Hi.
  set (W := canvasWidth st) in *. set (H := canvasHeight st) in *.
  set (iw := width (original item)) in *. set (ih := height (original item)) in *.
  assert (Hb : match alignEyes st, detections item with
               | true, Some det => Some (DrawAligned (alignTransform W H (zoom st) (geometryOf det)) (original item))
               | _, _ => Some (DrawLetterbox (original item) ((W - iw * Rmin (W / iw) (H / ih)) / 2)
                                 ((H - ih * Rmin (W / iw) (H / ih)) / 2)
                                 (iw * Rmin (W / iw) (H / ih)) (ih * Rmin (W / iw) (H / ih)))
               end =
               Some (DrawLetterbox (original item) ((W - iw * Rmin (W / iw) (H / ih)) / 2)
                                 ((H - ih * Rmin (W / iw) (H / ih)) / 2)
                                 (iw * Rmin (W / iw) (H / ih)) (ih * Rmin (W / iw) (H / ih)))).
  { destruct Hc as [-> | ->]; [reflexivity | destruct (alignEyes st); reflexivity]. }
  rewrite Hb. do 4 eexists. split; [reflexivity |].
  split; [ring |]. split; [field |]. split; [field |].
  unfold Rmin. destruct (Rle_dec (W / iw) (H / ih)) as [Hle | Hgt].
  - assert (Hw' : iw * (W / iw) = W) by (field; lra).
    assert (Hh' : ih * (W / iw) <= ih * (H / ih)) by (apply Rmult_le_compat_l; lra).
    replace (ih * (H / ih)) with H in Hh' by (field; lra).
    rewrite Hw'. split; [lra | split; [lra | left; reflexivity]].
  - assert (Hh' : ih * (H / ih) = H) by (field; lra).
    assert (Hw' : iw * (H / ih) <= iw * (W / iw)) by (apply Rmult_le_compat_l; lra).
    replace (iw * (W / iw)) with W in Hw' by (field; lra).
    rewrite Hh'. split; [lra | split; [lra | right; reflexivity]].
Qed.

Lemma letterbox_fits_witness :
  (nth_error (images stNoFace) 0 = Some (mkItem img10 None) /\
   detections (mkItem img10 None) = None /\
   0 < canvasWidth stNoFace /\ 0 < canvasHeight stNoFace /\ 0 < width img10 /\ 0 < height img10) /\
  exists x y w h, renderFrame stNoFace 0 = Some (DrawLetterbox img10 x y w h).
Proof.
  split; [repeat split; cbn; try lra; reflexivity |].
  destruct (letterbox_fits stNoFace 0 (mkItem img10 None)) as (x & y & w & h & E & _);
    [reflexivity | right; reflexivity | cbn; lra | cbn; lra | cbn; lra | cbn; lra |].
  exists x, y, w, h. exact E.
Defined.

(** ** Where the aligned eyes land *)

Lemma atan_ratio_scale (x y : R) :
  x <> 0 -> sqrt (1 + (y / x)²) * Rabs x = sqrt (x * x + y * y).
Proof.
  intros Hx. rewrite <- sqrt_Rsqr_abs. rewrite <- sqrt_mult.
  - f_equal. unfold Rsqr. field. exact Hx.
  - pose proof (Rle_0_sqr (y / x)). lra.
  - apply Rle_0_sqr.
Qed.

Lemma atan2_polar (x y : R) :
  (x <> 0 \/ y <> 0) ->
  cos (atan2 y x) * sqrt (x * x + y * y) = x /\ sin (atan2 y x) * sqrt (x * x + y * y) = y.
Proof.
  intros Hxy. unfold atan2.
  destruct (Rlt_dec 0 x) as [Hp | Hnp].
  - rewrite <- (atan_ratio_scale x y) by lra. rewrite (Rabs_right x) by lra.
    assert (HS : 0 < sqrt (1 + (y / x)²))
      by (apply sqrt_lt_R0; pose proof (Rle_0_sqr (y / x)); lra).
    rewrite cos_atan, sin_atan. split; field; lra.
  - destruct (Rlt_dec x 0) as [Hn | Hnn].
    + rewrite <- (atan_ratio_scale x y) by lra. rewrite (Rabs_left x) by lra.
      assert (HS : 0 < sqrt (1 + (y / x)²))
        by (apply sqrt_lt_R0; pose proof (Rle_0_sqr (y / x)); lra).
      destruct (Rle_dec 0 y).
      * rewrite cos_plus, sin_plus, cos_PI, sin_PI, cos_atan, sin_atan. split; field; lra.
      * rewrite cos_minus, sin_minus, cos_PI, sin_PI, cos_atan, sin_atan. split; field; lra.
    + assert (Ex : x = 0) by lra. subst x.
      replace (0 * 0 + y * y) with (y * y) by ring.
      destruct (Rlt_dec 0 y).
      * rewrite sqrt_square by lra. rewrite cos_PI2, sin_PI2. split; ring.
      * destruct (Rlt_dec y 0).
        -- replace (y * y) with (- y * - y) by ring. rewrite sqrt_square by lra.
           rewrite cos_neg, sin_neg, cos_PI2, sin_PI2. split; ring.
        -- exfalso. destruct Hxy; lra.
Qed.

Lemma align_eyes_images (W H z : R) (l r : Point) :
  0 < eyeDist (faceGeometry l r) ->
  transformPoint (alignTransform W H (Fin z) (faceGeometry l r)) l = mkPoint (W * 0.5 - W * z / 2) (H * 0.4) /\
  transformPoint (alignTransform W H (Fin z) (faceGeometry l r)) r = mkPoint (W * 0.5 + W * z / 2) (H * 0.4).
Proof.
  intros Hd. rewrite alignTransform_fin by lra.
  destruct l as [lx ly], r as [rx ry].
  unfold faceGeometry in *; cbn in *.
  set (a := atan2 (ry - ly) (rx - lx)).
  set (D := sqrt ((rx - lx) * (rx - lx) + (ry - ly) * (ry - ly))) in *.
  assert (Hnz : rx - lx <> 0 \/ ry - ly <> 0).
  { destruct (Req_EM_T (rx - lx) 0) as [E1 | E1]; [| left; exact E1].
    destruct (Req_EM_T (ry - ly) 0) as [E2 | E2]; [| right; exact E2].
    exfalso. unfold D in Hd. rewrite E1, E2, Rmult_0_l, Rplus_0_l, sqrt_0 in Hd. lra. }
  destruct (atan2_polar (rx - lx) (ry - ly) Hnz) as [Hc Hs]. fold a D in Hc, Hs.
  assert (Hsc : sin a * sin a + cos a * cos a = 1)
    by (pose proof (sin2_cos2 a) as Q; unfold Rsqr in Q; exact Q).
  assert (Erx : rx = lx + cos a * D) by lra.
  assert (Ery : ry = ly + sin a * D) by lra.
  clearbody a D. subst rx ry.
  unfold transformPoint, ctx_translate; cbn.
  rewrite cos_neg, sin_neg.
  split; f_equal.
  - transitivity (W * 0.5 - W * z / 2 * (sin a * sin a + cos a * cos a)); [field; lra |].
    rewrite Hsc. ring.
  - transitivity (H * 0.4); [field; lra | reflexivity].
  - transitivity (W * 0.5 + W * z / 2 * (sin a * sin a + cos a * cos a)); [field; lra |].
    rewrite Hsc. ring.
  - transitivity (H * 0.4); [field; lra | reflexivity].
Qed.

(** In an aligned frame the two eye centroids land on the horizontal line
    at 40% of the canvas height, symmetric about the vertical center line,
    the left one at [W/2 - W zoom/2] and the right one at [W/2 + W zoom/2]:
    the tilt is removed whatever the face's angle. *)
Theorem aligned_eyes_land (st : State) (i : nat) (item : Item) (det : Detection) (z : R) :
  nth_error (images st) i = Some item ->
  alignEyes st = true -> detections item = Some det -> zoom st = Fin z ->
  0 < eyeDist (geometryOf det) ->
  exists m, renderFrame st i = Some (DrawAligned m (original item)) /\
    transformPoint m (getCentroid (leftEye (landmarks det))) =
      mkPoint (canvasWidth st * 0.5 - canvasWidth st * z / 2) (canvasHeight st * 0.4) /\
    transformPoint m (getCentroid (rightEye (landmarks det))) =
      mkPoint (canvasWidth st * 0.5 + canvasWidth st * z / 2) (canvasHeight st * 0.4).
Proof.
  intros Hi Ha Hdet Hz Hd. unfold renderFrame. rewrite Hi, Ha, Hdet, Hz.
  eexists. split; [reflexivity |]. apply align_eyes_images. exact Hd.
Qed.

Lemma aligned_eyes_land_witness :
  (nth_error (images stFar) 0 = Some (mkItem img10 (Some detFar)) /\
   alignEyes stFar = true /\ detections (mkItem img10 (Some detFar)) = Some detFar /\
   zoom stFar = Fin 0.25 /\ 0 < eyeDist (geometryOf detFar)) /\
  exists m, renderFrame stFar 0 = Some (DrawAligned m img10).
Proof.
  assert (Hd : 0 < eyeDist (geometryOf detFar)) by (rewrite geometry_far; cbn; lra).
  split; [repeat split; try reflexivity; exact Hd |].
  destruct (aligned_eyes_land stFar 0 (mkItem img10 (Some detFar)) detFar 0.25) as (m & E & _);
    try reflexivity; [exact Hd |].
  exists m. exact E.
Defined.

(** ** Playback *)

Lemma renderFrame_some (st : State) (i : nat) :
  (i < List.length (images st))%nat -> exists d, renderFrame st i = Some d.
Proof.
  intros Hi. unfold renderFrame.
  destruct (nth_error (images st) i) as [item|] eqn:E.
  - destruct (alignEyes st), (detections item); eexists; reflexivity.
  - apply nth_error_None in E. lia.
Qed.

Lemma renderInto_shows (st : State) (i : nat) :
  (i < List.length (images st))%nat -> canvasContent (renderInto st i) = renderFrame st i.
Proof.
  intros Hi. destruct (renderFrame_some st i Hi) as [d Hd].
  unfold renderInto. rewrite Hd. reflexivity.
Qed.

Lemma renderFrame_renderInto (st : State) (i j : nat) :
  renderFrame (renderInto st i) j = renderFrame st j.
Proof. unfold renderInto. destruct (renderFrame st i); reflexivity. Qed.

Lemma renderFrame_setPlayback (st : State) (b : bool) (c j : nat) :
  renderFrame (setPlayback st b c) j = renderFrame st j.
Proof. reflexivity. Qed.

Lemma renderFrame_showLoading (st : State) (t : string) (j : nat) :
  renderFrame (showLoading st t) j = renderFrame st j.
Proof. reflexivity. Qed.

Lemma images_renderInto (st : State) (i : nat) : images (renderInto st i) = images st.
Proof. unfold renderInto. destruct (renderFrame st i); reflexivity. Qed.

Lemma isPlaying_renderInto (st : State) (i : nat) : isPlaying (renderInto st i) = isPlaying st.
Proof. unfold renderInto. destruct (renderFrame st i); reflexivity. Qed.

Lemma mod_succ_idemp (a n : nat) : n <> O -> (S (a mod n) mod n = S a mod n)%nat.
Proof.
  intros Hn. replace (S (a mod n)) with (a mod n + 1)%nat by lia.
  replace (S a) with (a + 1)%nat by lia. apply Nat.Div0.add_mod_idemp_l.
Qed.

Lemma loopTick_advance (p : Player) (t : R) :
  isPlaying (pstate p) = true -> images (pstate p) <> [] ->
  1000 / fps p < t - lastTime p ->
  loopTick p t =
  Continue (mkPlayer (setPlayback (renderInto (pstate p) (currentFrame (pstate p))) true
                        (S (currentFrame (pstate p)) mod List.length (images (pstate p))))
                     (fps p) t).
Proof.
  intros Hp Hne Ht. unfold loopTick. rewrite Hp. cbn [negb].
  destruct (Rlt_dec (1000 / fps p) (t - lastTime p)) as [_ | Hn]; [| lra].
  cbv zeta. rewrite images_renderInto, isPlaying_renderInto, Hp.
  assert (Hr : currentFrame (renderInto (pstate p) (currentFrame (pstate p))) = currentFrame (pstate p))
    by (unfold renderInto; destruct renderFrame; reflexivity).
  rewrite Hr.
  destruct (images (pstate p)) as [|x l]; [contradiction | reflexivity].
Qed.

(** One tick of the playback loop once the interval has elapsed: the frame
    at [currentFrame] is drawn (when that index is in range), the index
    moves to [(currentFrame + 1) % length], which is always in range, and
    [lastTime] becomes the tick's timestamp; images and playing flag stay. *)
Theorem loop_tick_advances (p : Player) (t : R) :
  isPlaying (pstate p) = true -> images (pstate p) <> [] ->
  1000 / fps p < t - lastTime p ->
  exists p', loopTick p t = Continue p' /\
    currentFrame (pstate p') = (S (currentFrame (pstate p)) mod List.length (images (pstate p)))%nat /\
    (currentFrame (pstate p') < List.length (images (pstate p)))%nat /\
    images (pstate p') = images (pstate p) /\ isPlaying (pstate p') = true /\
    lastTime p' = t /\ fps p' = fps p /\
    ((currentFrame (pstate p) < List.length (images (pstate p)))%nat ->
       canvasContent (pstate p') = renderFrame (pstate p) (currentFrame (pstate p))).
Proof.
  intros Hp Hne Ht. rewrite (loopTick_advance p t Hp Hne Ht).
  eexists. split; [reflexivity |]. cbn [pstate lastTime fps].
  assert (Hn : List.length (images (pstate p)) <> O)
    by (destruct (images (pstate p)); [contradiction | discriminate]).
  split; [reflexivity |].
  split; [apply Nat.mod_upper_bound; exact Hn |].
  split; [apply images_renderInto |].
  split; [reflexivity |]. split; [reflexivity |]. split; [reflexivity |].
  intros Hc. apply renderInto_shows. exact Hc.
Qed.

Lemma loop_tick_advances_witness :
  (isPlaying (pstate (startPlayback stFar 10)) = true /\ images (pstate (startPlayback stFar 10)) <> [] /\
   1000 / fps (startPlayback stFar 10) < 200 - lastTime (startPlayback stFar 10)) /\
  exists p', loopTick (startPlayback stFar 10) 200 = Continue p' /\ currentFrame (pstate p') = O.
Proof.
  assert (Ht : 1000 / fps (startPlayback stFar 10) < 200 - lastTime (startPlayback stFar 10))
    by (cbn; lra).
  split; [split; [reflexivity | split; [discriminate | exact Ht]] |].
  destruct (loop_tick_advances (startPlayback stFar 10) 200) as (p' & E & Hc & _);
    [reflexivity | discriminate | exact Ht |].
  exists p'. split; [exact E | rewrite Hc; reflexivity].
Defined.

Lemma runLoop_cycles (p : Player) (ts : list R) :
  isPlaying (pstate p) = true -> images (pstate p) <> [] ->
  spaced (lastTime p) (1000 / fps p) ts ->
  exists p', runLoop p ts = Continue p' /\
    currentFrame (pstate p') =
      (match ts with [] => currentFrame (pstate p)
                | _ => (currentFrame (pstate p) + List.length ts) mod List.length (images (pstate p)) end)%nat /\
    images (pstate p') = images (pstate p) /\ isPlaying (pstate p') = true /\ fps p' = fps p.
Proof.
  revert p. induction ts as [|t ts IH]; intros p Hp Hne Hs.
  - exists p. repeat split; assumption.
  - destruct Hs as [Ht Hs].
    assert (Hn : List.length (images (pstate p)) <> O)
      by (destruct (images (pstate p)); [contradiction | discriminate]).
    cbn [runLoop]. rewrite (loopTick_advance p t Hp Hne Ht).
    set (p1 := mkPlayer _ _ _).
    assert (Hi1 : images (pstate p1) = images (pstate p)) by apply images_renderInto.
    destruct (IH p1) as (p' & E & Hc & Hi & Hp' & Hf).
    + reflexivity.
    + rewrite Hi1. exact Hne.
    + exact Hs.
    + exists p'. split; [exact E |].
      rewrite Hi, Hi1, Hf. split; [| tauto].
      rewrite Hc. destruct ts as [|t' ts'].
      * cbn. f_equal. lia.
      * rewrite Hi1. unfold p1. cbn [pstate setPlayback currentFrame List.length].
        rewrite Nat.Div0.add_mod_idemp_l. f_equal. lia.
Qed.

(** Started playback cycles through the frames: after [k] animation frames
    each more than [1000 / fps] ms after the previous one (the first counted
    from time 0), the loop is still running and the current index is
    [k mod length]; the images are untouched. *)
Theorem playback_cycles (st : State) (fpsv : R) (ts : list R) :
  images st <> [] -> spaced 0 (1000 / fpsv) ts ->
  exists p', runLoop (startPlayback st fpsv) ts = Continue p' /\
    currentFrame (pstate p') = (List.length ts mod List.length (images st))%nat /\
    images (pstate p') = images st /\ isPlaying (pstate p') = true.
Proof.
  intros Hne Hs.
  destruct (runLoop_cycles (startPlayback st fpsv) ts) as (p' & E & Hc & Hi & Hp & _);
    [reflexivity | exact Hne | exact Hs |].
  exists p'. split; [exact E |]. split; [| split; assumption].
  rewrite Hc. destruct ts as [|t ts]; [| reflexivity].
  cbn. symmetry. apply Nat.Div0.mod_0_l.
Qed.

Lemma playback_cycles_witness :
  (images stThree <> [] /\ spaced 0 (1000 / 10) [200; 400; 600; 800]) /\
  exists p', runLoop (startPlayback stThree 10) [200; 400; 600; 800] = Continue p' /\
    currentFrame (pstate p') = 1%nat.
Proof.
  assert (Hs : spaced 0 (1000 / 10) [200; 400; 600; 800]) by (cbn; lra).
  split; [split; [discriminate | exact Hs] |].
  destruct (playback_cycles stThree 10 [200; 400; 600; 800]) as (p' & E & Hc & _);
    [discriminate | exact Hs |].
  exists p'. split; [exact E | exact Hc].
Defined.

(** [resetApp] empties the session and stops playback: the running loop
    stops at its next tick, every index then draws nothing, and auto-fit
    and GIF export return at once. *)
Theorem reset_stops_everything (st : State) (fpsv lt t : R) (i : nat) :
  let st' := resetApp st in
  images st' = [] /\ isPlaying st' = false /\
  loopTick (mkPlayer st' fpsv lt) t = Stopped /\
  renderFrame st' i = None /\
  autoFitZoom st' = st' /\ exportGif st' fpsv = (st', []).
Proof.
  cbv zeta. repeat split.
  - unfold renderFrame. cbn. destruct i; reflexivity.
Qed.

(** ** GIF export *)

Lemma addFrames_fold (fpsv : R) (l : list nat) (s : State) (acc : list GifFrame) :
  (forall i, In i l -> (i < List.length (images s))%nat) ->
  let r := fold_left (addFrameStep fpsv) l (s, acc) in
  snd r = acc ++ map (fun i => (renderFrame s i, 1000 / fpsv)) l /\
  (forall j, renderFrame (fst r) j = renderFrame s j) /\
  images (fst r) = images s /\ isPlaying (fst r) = isPlaying s /\
  currentFrame (fst r) = currentFrame s /\
  (l <> [] -> loadingVisible (fst r) = true /\
              canvasContent (fst r) = renderFrame s (last l O)).
Proof.
  revert s acc. induction l as [|i l IH]; intros s acc Hl; cbv zeta.
  - cbn. rewrite app_nil_r. split; [reflexivity |]. split; [reflexivity |]. split; [reflexivity |].
    split; [reflexivity |]. split; [reflexivity |]. intros Hne; contradiction.
  - cbn [fold_left].
    set (s1 := showLoading (renderInto s i) "Adding frames...").
    change (addFrameStep fpsv (s, acc) i)
      with (s1, acc ++ [(canvasContent (renderInto s i), 1000 / fpsv)]).
    assert (Hi : (i < List.length (images s))%nat) by (apply Hl; left; reflexivity).
    assert (Hr : forall j, renderFrame s1 j = renderFrame s j)
      by (intros j; unfold s1; rewrite renderFrame_showLoading; apply renderFrame_renderInto).
    assert (Him : images s1 = images s) by (unfold s1; cbn; apply images_renderInto).
    destruct (IH s1 (acc ++ [(canvasContent (renderInto s i), 1000 / fpsv)])) as (E1 & E2 & E3 & E4 & E5 & E6).
    { intros j Hj. rewrite Him. apply Hl. right. exact Hj. }
    split; [| split; [| split; [| split; [| split]]]].
    + rewrite E1, renderInto_shows by exact Hi. rewrite <- app_assoc. cbn [app map].
      f_equal. f_equal. apply map_ext. intros j. rewrite Hr. reflexivity.
    + intros j. rewrite E2. apply Hr.
    + rewrite E3. exact Him.
    + rewrite E4. unfold s1. cbn. apply isPlaying_renderInto.
    + rewrite E5. unfold s1, renderInto. cbn. destruct (renderFrame s i); reflexivity.
    + intros _. destruct l as [|i' l'].
      * cbn. split; [reflexivity |]. unfold s1. cbn. apply renderInto_shows. exact Hi.
      * destruct E6 as [E6a E6b]; [discriminate |]. split; [exact E6a |].
        rewrite E6b, Hr. reflexivity.
Qed.

Lemma last_seq (n : nat) : last (seq 0 (S n)) O = n.
Proof.
  rewrite seq_S. rewrite last_last. reflexivity.
Qed.

(** A GIF export of a non-empty session adds, in order, one frame per image,
    each being exactly what [renderFrame(i)] draws and lasting
    [1000 / fps] ms; meanwhile playback is paused, the overlay is shown,
    and the canvas is left showing the last frame.  The [finished] callback
    then hides the overlay and, if playback was running before, restarts it
    from frame 0, not from where it was paused. *)
Theorem exportGif_frames (st : State) (fpsv : R) :
  images st <> [] ->
  let '(st', frames) := exportGif st fpsv in
  frames = map (fun i => (renderFrame st i, 1000 / fpsv)) (seq 0 (List.length (images st))) /\
  (forall i, In i (seq 0 (List.length (images st))) -> renderFrame st i <> None) /\
  isPlaying st' = false /\ loadingVisible st' = true /\ images st' = images st /\
  canvasContent st' = renderFrame st (pred (List.length (images st))) /\
  (let fin := gifFinished (isPlaying st) st' in
   loadingVisible fin = false /\ isPlaying fin = isPlaying st /\
   (isPlaying st = true -> currentFrame fin = O) /\
   (isPlaying st = false -> currentFrame fin = currentFrame st)).
Proof.
  intros Hne. unfold exportGif.
  destruct (images st) as [|it its] eqn:Ei; [contradiction |].
  cbv zeta.
  set (s2 := setPlayback (showLoading st "Generating GIF...") false
                         (currentFrame (showLoading st "Generating GIF..."))).
  assert (Hs2 : images s2 = it :: its) by (unfold s2; cbn; exact Ei).
  assert (Hr2 : forall j, renderFrame s2 j = renderFrame st j) by reflexivity.
  assert (Hin : forall i, In i (seq 0 (List.length (images s2))) -> (i < List.length (images s2))%nat)
    by (intros i Hi; apply in_seq in Hi; lia).
  destruct (addFrames_fold fpsv (seq 0 (List.length (images s2))) s2 [] Hin)
    as (E1 & E2 & E3 & E4 & E5 & E6).
  cbv zeta in *.
  destruct (fold_left (addFrameStep fpsv) (seq 0 (List.length (images s2))) (s2, [])) as [st' frames].
  cbn [fst snd] in *. rewrite Hs2 in *.
  destruct E6 as [E6a E6b]; [discriminate |].
  split; [| split; [| split; [| split; [| split; [| split]]]]].
  - rewrite E1. cbn [app]. apply map_ext. intros j. rewrite Hr2. reflexivity.
  - intros i Hi. apply in_seq in Hi.
    assert (Hlt : (i < List.length (images st))%nat) by (rewrite Ei; lia).
    destruct (renderFrame_some st i Hlt) as [d Hd]. rewrite Hd. discriminate.
  - rewrite E4. reflexivity.
  - exact E6a.
  - rewrite E3. reflexivity.
  - rewrite E6b, Hr2. cbn [List.length pred]. rewrite last_seq. reflexivity.
  - unfold gifFinished. destruct (isPlaying st) eqn:Ep; cbn.
    + split; [reflexivity | split; [reflexivity | split; [reflexivity | discriminate]]].
    + split; [reflexivity | split; [exact E4 | split; [discriminate | intros _]]].
      rewrite E5. reflexivity.
Qed.

Lemma exportGif_frames_witness :
  images stFar <> [] /\
  snd (exportGif stFar 10) = [(renderFrame stFar 0, 1000 / 10)].
Proof.
  split; [discriminate |].
  pose proof (exportGif_frames stFar 10) as H.
  destruct (exportGif stFar 10) as [st' frames].
  destruct H as [E _]; [discriminate |]. cbn [snd]. rewrite E. reflexivity.
Defined.

(** ** Ingestion *)

Lemma ingest_fold (process : File -> option Item) (n : nat) (entries : list (nat * File)) (st : State) :
  let r := fold_left (ingestStep process n) entries st in
  images r = images st ++ flat_map (fun f => match process f with Some it => [it] | None => [] end)
                                   (map snd entries) /\
  isPlaying r = isPlaying st /\ currentFrame r = currentFrame st /\ zoom r = zoom st /\
  alignEyes r = alignEyes st /\ canvasContent r = canvasContent st /\
  (entries <> [] -> loadingVisible r = true).
Proof.
  revert st. induction entries as [|[i f] es IH]; intros st; cbv zeta.
  - cbn. rewrite app_nil_r. repeat split. intros Hne; contradiction.
  - cbn [fold_left].
    set (st1 := ingestStep process n st (i, f)).
    assert (Hst1 : images st1 = images st ++ match process f with Some it => [it] | None => [] end /\
                   isPlaying st1 = isPlaying st /\ currentFrame st1 = currentFrame st /\
                   zoom st1 = zoom st /\ alignEyes st1 = alignEyes st /\
                   canvasContent st1 = canvasContent st /\ loadingVisible st1 = true).
    { unfold st1, ingestStep. cbn [fst snd].
      destruct (isHeicName f), (process f); cbn; rewrite ?app_nil_r; repeat split. }
    destruct Hst1 as (F1 & F2 & F3 & F4 & F5 & F6 & F7).
    destruct (IH st1) as (E1 & E2 & E3 & E4 & E5 & E6 & E7).
    split; [| split; [| split; [| split; [| split; [| split]]]]].
    + rewrite E1, F1, <- app_assoc. reflexivity.
    + rewrite E2. exact F2.
    + rewrite E3. exact F3.
    + rewrite E4. exact F4.
    + rewrite E5. exact F5.
    + rewrite E6. exact F6.
    + intros _. destruct es as [|e es']; [cbn; exact F7 | apply E7; discriminate].
Qed.

Lemma map_snd_combine_seq (k : nat) (files : list File) :
  map snd (combine (seq k (List.length files)) files) = files.
Proof.
  revert k. induction files as [|f fs IH]; intros k; [reflexivity |].
  cbn. f_equal. apply IH.
Qed.

(** The items [process] yields for the accepted files, in file order. *)
Lemma ingest_items (process : File -> option Item) (st : State) (files : list File) :
  files <> [] ->
  let n := List.length files in
  let st3 := fold_left (ingestStep process n) (combine (seq 0 n) files)
               (setImages (showLoading st ("Processing " ++ nat_to_string n ++ " images...")%string) []) in
  images st3 = flat_map (fun f => match process f with Some it => [it] | None => [] end) files /\
  loadingVisible st3 = true.
Proof.
  intros Hne. cbv zeta.
  destruct (ingest_fold process (List.length files) (combine (seq 0 (List.length files)) files)
              (setImages (showLoading st ("Processing " ++ nat_to_string (List.length files) ++ " images...")%string) []))
    as (E1 & _ & _ & _ & _ & _ & E7).
  cbv zeta in *. split.
  - rewrite E1. cbn [images setImages app].
    rewrite map_snd_combine_seq. reflexivity.
  - apply E7. destruct files; [contradiction |]. discriminate.
Qed.

(** A successful upload (at least one accepted file that [process] turns
    into an item): the session holds exactly the items of the accepted
    files that could be processed, in their order, the canvas takes the
    size of the first one and is cleared, the overlay is hidden and
    playback starts at frame 0. *)
Theorem handleFiles_success (process : File -> option Item) (st : State) (fileList : list File) :
  let items := flat_map (fun f => match process f with Some it => [it] | None => [] end)
                        (filter acceptedFile fileList) in
  items <> [] ->
  exists first rest, items = first :: rest /\
    let st' := handleFiles true process st fileList in
    images st' = items /\
    canvasWidth st' = width (original first) /\ canvasHeight st' = height (original first) /\
    canvasContent st' = None /\ loadingVisible st' = false /\
    isPlaying st' = true /\ currentFrame st' = O /\
    zoom st' = zoom st /\ alignEyes st' = alignEyes st.
Proof.
  cbv zeta. intros Hne.
  destruct (flat_map _ (filter acceptedFile fileList)) as [|first rest] eqn:Eit; [contradiction |].
  exists first, rest. split; [reflexivity |].
  unfold handleFiles. cbn [negb].
  destruct (filter acceptedFile fileList) as [|f0 fs] eqn:Ef; [discriminate |].
  rewrite <- Ef in *.
  destruct (ingest_items process st (filter acceptedFile fileList)) as [E1 _];
    [rewrite Ef; discriminate |].
  destruct (ingest_fold process (List.length (filter acceptedFile fileList))
              (combine (seq 0 (List.length (filter acceptedFile fileList))) (filter acceptedFile fileList))
              (setImages (showLoading st ("Processing " ++ nat_to_string (List.length (filter acceptedFile fileList))
                                           ++ " images...")%string) []))
    as (_ & _ & _ & E4 & E5 & _ & _).
  cbv zeta in *. rewrite Eit in E1.
  match goal with |- context [match images ?s with _ => _ end] =>
    set (st3 := s) in *; fold st3 in E4, E5 end.
  rewrite E1. cbn. repeat split; assumption.
Qed.

Lemma handleFiles_success_witness :
  flat_map (fun f => match (fun _ : File => Some (mkItem img10 None)) f with Some it => [it] | None => [] end)
           (filter acceptedFile [mkFile "image/jpeg" "a.jpg"]) <> [] /\
  canvasWidth (handleFiles true (fun _ => Some (mkItem img10 None)) stEmpty [mkFile "image/jpeg" "a.jpg"]) = 10.
Proof.
  assert (Hne : flat_map (fun f => match (fun _ : File => Some (mkItem img10 None)) f with
                                   | Some it => [it] | None => [] end)
                         (filter acceptedFile [mkFile "image/jpeg" "a.jpg"]) <> []) by discriminate.
  split; [exact Hne |].
  destruct (handleFiles_success (fun _ => Some (mkItem img10 None)) stEmpty [mkFile "image/jpeg" "a.jpg"] Hne)
    as (first & rest & E & _ & Hw & _).
  rewrite Hw. injection E as <- _. reflexivity.
Defined.

Lemma flat_map_all_none (process : File -> option Item) (l : list File) :
  (forall f, In f l -> process f = None) ->
  flat_map (fun f => match process f with Some it => [it] | None => [] end) l = [].
Proof.
  induction l as [|f fs IH]; intros Hf; [reflexivity |].
  cbn. rewrite (Hf f (or_introl eq_refl)). apply IH.
  intros g Hg. apply Hf. right. exact Hg.
Qed.

(** When files were accepted but none could be processed, the session is
    reset (no images, playback off), yet the loading overlay, shown at the
    start, is never hidden: [resetApp] does not call [hideLoading]. *)
Theorem handleFiles_all_fail (process : File -> option Item) (st : State) (fileList : list File) :
  filter acceptedFile fileList <> [] ->
  (forall f, In f (filter acceptedFile fileList) -> process f = None) ->
  let st' := handleFiles true process st fileList in
  images st' = [] /\ isPlaying st' = false /\ loadingVisible st' = true.
Proof.
  intros Hne Hfail. cbv zeta.
  pose proof (flat_map_all_none process _ Hfail) as Hnil.
  destruct (ingest_items process st (filter acceptedFile fileList) Hne) as [E1 E2].
  cbv zeta in *. rewrite Hnil in E1.
  unfold handleFiles. cbn [negb].
  destruct (filter acceptedFile fileList) as [|f0 fs] eqn:Ef; [contradiction |].
  cbv zeta. rewrite E1. cbn. split; [reflexivity | split; [reflexivity | exact E2]].
Qed.

Lemma handleFiles_all_fail_witness :
  (filter acceptedFile [mkFile "image/png" "a.png"] <> [] /\
   (forall f, In f (filter acceptedFile [mkFile "image/png" "a.png"]) -> (fun _ : File => @None Item) f = None)) /\
  loadingVisible (handleFiles true (fun _ => None) stEmpty [mkFile "image/png" "a.png"]) = true.
Proof.
  assert (H1 : filter acceptedFile [mkFile "image/png" "a.png"] <> []) by discriminate.
  assert (H2 : forall f, In f (filter acceptedFile [mkFile "image/png" "a.png"]) ->
                         (fun _ : File => @None Item) f = None) by reflexivity.
  split; [split; assumption |].
  destruct (handleFiles_all_fail (fun _ => None) stEmpty [mkFile "image/png" "a.png"] H1 H2) as (_ & _ & E).
  exact E.
Defined.

(** ** The upload filter *)

Lemma toLowerCase_app (a b : string) : toLowerCase (a ++ b) = (toLowerCase a ++ toLowerCase b)%string.
Proof. induction a as [|c a IH]; [reflexivity | cbn; rewrite IH; reflexivity]. Qed.

Lemma string_length_app (a b : string) : String.length (a ++ b) = (String.length a + String.length b)%nat.
Proof. induction a as [|c a IH]; [reflexivity | cbn; rewrite IH; reflexivity]. Qed.

Lemma substring_app_r (a b : string) (k : nat) :
  substring (String.length a) k (a ++ b) = substring 0 k b.
Proof. induction a as [|c a IH]; [reflexivity | exact IH]. Qed.

Lemma substring_full (b : string) : substring 0 (String.length b) b = b.
Proof. induction b as [|c b IH]; [reflexivity | cbn; rewrite IH; reflexivity]. Qed.

Lemma endsWith_app (a b : string) : endsWith (a ++ b) b = true.
Proof.
  unfold endsWith. rewrite string_length_app.
  replace (String.length a + String.length b - String.length b)%nat with (String.length a) by lia.
  rewrite substring_app_r, substring_full.
  assert (Hle : Nat.leb (String.length b) (String.length a + String.length b) = true)
    by (apply Nat.leb_le; lia).
  rewrite Hle. cbn. apply String.eqb_eq. reflexivity.
Qed.

(** A file whose name ends in [.heic] or [.heif], in any mix of upper and
    lower case, passes the upload filter whatever its MIME type (browsers
    often give HEIC files none) and goes through the HEIC conversion step. *)
Theorem heic_name_accepted (mime base ext : string) :
  (toLowerCase ext = ".heic"%string \/ toLowerCase ext = ".heif"%string) ->
  acceptedFile (mkFile mime (base ++ ext)) = true /\ isHeicName (mkFile mime (base ++ ext)) = true.
Proof.
  intros Hext. unfold acceptedFile, isHeicName. cbn [fname]. rewrite toLowerCase_app.
  destruct Hext as [E | E]; rewrite E, endsWith_app.
  - rewrite !Bool.orb_true_r. split; [| reflexivity]. rewrite Bool.orb_true_l. reflexivity.
  - rewrite !Bool.orb_true_r. split; reflexivity.
Qed.

Lemma heic_name_accepted_witness :
  (toLowerCase ".HEIC" = ".heic"%string \/ toLowerCase ".HEIC" = ".heif"%string) /\
  acceptedFile (mkFile "" "IMG_0042.HEIC") = true.
Proof.
  assert (H : toLowerCase ".HEIC" = ".heic"%string \/ toLowerCase ".HEIC" = ".heif"%string)
    by (left; reflexivity).
  split; [exact H |].
  exact (proj1 (heic_name_accepted "" "IMG_0042" ".HEIC" H)).
Defined.

(** ** Auto-fit and the zoom slider *)

Lemma clampZoom_PInf : clampZoom PInf = Fin 1.
Proof.
  unfold clampZoom. cbn [num_mulR]. rdec. cbn [num_mulR]. rdec.
  cbn [num_floor num_divR]. rdec. cbn. f_equal. apply Rmax_right. lra.
Qed.

Lemma clampZoom_NInf : clampZoom NInf = Fin 0.1.
Proof.
  unfold clampZoom. cbn [num_mulR]. rdec. cbn [num_mulR]. rdec.
  cbn [num_floor num_divR]. rdec. reflexivity.
Qed.

Lemma clampZoom_grid (x : num) (z : R) :
  clampZoom x = Fin z -> exists k : Z, z * 100 = IZR k.
Proof.
  destruct x as [a| | |]; intros E.
  - rewrite clampZoom_fin in E. injection E as <-. unfold math_floor, Rmax, Rmin.
    destruct (Rle_dec 1 (IZR (Int_part (a * 0.95 * 100)) / 100));
      destruct Rle_dec;
      first [ exists 100%Z; lra | exists 10%Z; lra | exists (Int_part (a * 0.95 * 100)); field ].
  - rewrite clampZoom_PInf in E. injection E as <-. exists 100%Z. lra.
  - rewrite clampZoom_NInf in E. injection E as <-. exists 10%Z. lra.
  - discriminate.
Qed.

Lemma onZoomInput_zoom (st : State) (v : Z) : zoom (onZoomInput st v) = Fin (IZR v / 100).
Proof.
  unfold onZoomInput. destruct (_ && _)%bool; [rewrite renderInto_zoom |]; reflexivity.
Qed.

(** The slider round trip: the integer auto-fit writes to the zoom slider,
    read back by the slider's [input] handler ([parseInt(value) / 100]),
    gives exactly the zoom auto-fit chose, because that zoom is always a
    whole number of hundredths. *)
Theorem autoFit_slider_roundtrip (st : State) (z : R) :
  images st <> [] -> zoom (autoFitZoom st) = Fin z ->
  exists v : Z, zoomRangeValue (autoFitZoom st) = Fin (IZR v) /\
    zoom (onZoomInput (autoFitZoom st) v) = Fin z.
Proof.
  intros Hne Hz.
  assert (Hc : clampZoom (minSafeZoomOf st) = Fin z) by (rewrite <- autoFit_zoom by exact Hne; exact Hz).
  destruct (clampZoom_grid _ _ Hc) as [k Hk].
  exists k. split.
  - rewrite autoFit_slider by exact Hne. rewrite Hz. cbn [num_mulR num_round].
    rewrite Hk. f_equal.
    pose proof (floor_between (IZR k + /2) k k) as Hb.
    assert (IZR k <= IZR k + / 2 < IZR k + 1) by lra. specialize (Hb H). lra.
  - rewrite onZoomInput_zoom. f_equal. lra.
Qed.

Lemma autoFit_far_zoom : zoom (autoFitZoom stFar) = Fin (95 / 100).
Proof.
  rewrite autoFit_zoom by discriminate. rewrite minSafeZoom_far, clampZoom_fin.
  replace (1 * 0.95 * 100) with 95 by lra. rewrite floor_95.
  rewrite Rmin_right by lra. rewrite Rmax_right by lra. reflexivity.
Qed.

Lemma autoFit_slider_roundtrip_witness :
  (images stFar <> [] /\ zoom (autoFitZoom stFar) = Fin (95 / 100)) /\
  exists v : Z, zoom (onZoomInput (autoFitZoom stFar) v) = Fin (95 / 100).
Proof.
  split; [split; [discriminate | exact autoFit_far_zoom] |].
  destruct (autoFit_slider_roundtrip stFar (95 / 100)) as (v & _ & E);
    [discriminate | exact autoFit_far_zoom |].
  exists v. exact E.
Defined.

(** ** The aligned draw is a similarity *)

(** Under the transform of an aligned frame, the distance between any two
    points of the image is multiplied by the same factor
    [|zoom * W / eyeDist|]: the face is moved, turned and uniformly
    scaled, never sheared or stretched. *)
Theorem alignTransform_similarity (W H z : R) (g : Geometry) (p q : Point) :
  eyeDist g <> 0 ->
  pdist (transformPoint (alignTransform W H (Fin z) g) p) (transformPoint (alignTransform W H (Fin z) g) q) =
  Rabs (z * W / eyeDist g) * pdist p q.
Proof.
  intros Hd. rewrite alignTransform_fin by exact Hd.
  set (s := z * W / eyeDist g). set (t := - angle g).
  assert (Hsc : sin t * sin t + cos t * cos t = 1)
    by (pose proof (sin2_cos2 t) as Q; unfold Rsqr in Q; exact Q).
  unfold pdist, transformPoint, ctx_translate; cbn.
  set (u := px p - px q). set (v := py p - py q).
  match goal with
  | |- sqrt ?e = _ =>
      replace e with ((s * s) * (u * u + v * v) * (sin t * sin t + cos t * cos t))
        by (unfold u, v; ring)
  end.
  rewrite Hsc, Rmult_1_r.
  rewrite sqrt_mult_alt by (apply Rle_0_sqr).
  change (s * s) with (Rsqr s). rewrite sqrt_Rsqr_abs. reflexivity.
Qed.

Lemma alignTransform_similarity_witness :
  eyeDist (mkGeometry (mkPoint 5 5) 0 2) <> 0 /\
  pdist (transformPoint (alignTransform 10 10 (Fin (1/4)) (mkGeometry (mkPoint 5 5) 0 2)) (mkPoint 0 0))
        (transformPoint (alignTransform 10 10 (Fin (1/4)) (mkGeometry (mkPoint 5 5) 0 2)) (mkPoint 3 4)) =
  Rabs (1/4 * 10 / 2) * pdist (mkPoint 0 0) (mkPoint 3 4).
Proof.
  assert (Hd : eyeDist (mkGeometry (mkPoint 5 5) 0 2) <> 0) by (cbn; lra).
  split; [exact Hd |].
  exact (alignTransform_similarity 10 10 (1/4) (mkGeometry (mkPoint 5 5) 0 2) (mkPoint 0 0) (mkPoint 3 4) Hd).
Defined.

